(** * Numeric utilities of the depth-aware motion deblurring toolkit

    A shallow embedding of [src/utils/utils.cpp]: the masked normalised
    cross-correlation, the shape-aware 2-D convolution [conv2], the
    quadrant swap used for centred spectra, the min/max normalisation,
    the edge taper, the display helpers, the Fourier transform wrappers
    and the gradient magnitude.

    Conventions of the embedding:
    - a [cv::Mat] is a record with its [rows] and [cols] fields and its
      samples in row-major order;
    - [int] values are in [Z]; C++ integer division is [Z.quot];
    - [float] samples are idealised as real numbers; the only part of
      IEEE arithmetic that is kept is that a division by zero yields a
      non-finite value ([fval]).  Statements that rounding, overflow or
      underflow would falsify carry a bound on the samples; and where a
      claim is about rounding itself, [crossCorrelation] is read again in
      binary32 arithmetic ([crossCorrelation32]);
    - [uchar] samples are in [Z];
    - a failed [assert], an OpenCV argument check and a thrown exception
      are the [Err] outcomes of the [result] monad;
    - [imshow] and [imwrite] are the [Event]s of a returned trace. *)

From Stdlib Require Import ZArith Reals Lra Lia List.
From Stdlib Require SpecFloat.
From stdpp Require Import base tactics option list list_numbers strings.
Import ListNotations.

Open Scope Z_scope.

(** ** Outcomes *)

Inductive Error : Type :=
  | AssertionFailed   (* a C [assert] does not hold *)
  | CvArgumentError   (* an argument check inside an OpenCV routine *)
  | RuntimeError.     (* [throw runtime_error(...)] *)

Inductive result (A : Type) : Type :=
  | Ok (a : A)
  | Err (e : Error).
Arguments Ok {A} a.
Arguments Err {A} e.

Global Instance result_bind : MBind result := λ A B k r,
  match r with
  | Ok a => k a
  | Err e => Err e
  end.

Definition assert (b : bool) : result unit :=
  if b then Ok tt else Err AssertionFailed.

Definition isErr {A} (r : result A) : Prop :=
  match r with Ok _ => False | Err _ => True end.

(** ** Loops

    [for (int i = lo; i < lo + n; i++) st = body(i, st);] *)

Definition forZ {S} (lo n : Z) (body : Z → S → S) (st : S) : S :=
  foldl (λ st i, body i st) st (seqZ lo n).

(** ** Matrices *)

Record Mat (A : Type) : Type := mkMat {
  rows : Z;
  cols : Z;
  data : list (list A)
}.
Arguments mkMat {A} rows cols data.
Arguments rows {A} m.
Arguments cols {A} m.
Arguments data {A} m.

Record Point : Type := mkPoint { px : Z; py : Z }.
Record Rect : Type := mkRect { rx : Z; ry : Z; rwidth : Z; rheight : Z }.

Section Mat.
Context {A : Type}.

(** The samples really have the shape the header fields announce. *)
Definition wfMat (m : Mat A) : Prop :=
  0 ≤ rows m ∧ 0 ≤ cols m ∧
  length (data m) = Z.to_nat (rows m) ∧
  Forall (λ r, length r = Z.to_nat (cols m)) (data m).

Definition lookupZ {B} (l : list B) (i : Z) : option B :=
  if bool_decide (0 ≤ i) then l !! Z.to_nat i else None.

(** [m.at<T>(row, col)]; [d] stands for what an out-of-range read
    returns.  C++ does not check the indices: such a read is undefined
    there, and a statement about it says nothing of the program. *)
Definition Mat_at (d : A) (m : Mat A) (row col : Z) : A :=
  default d (lookupZ (data m) row ≫= λ r, lookupZ r col).

(** [m.at<T>(row, col) = v]; an out-of-range store is left out here.
    C++ does not check the indices either: such a store is undefined
    there. *)
Definition Mat_set (m : Mat A) (row col : Z) (v : A) : Mat A :=
  if bool_decide (0 ≤ row ∧ 0 ≤ col) then
    mkMat (rows m) (cols m)
          (alter (λ r, <[Z.to_nat col := v]> r) (Z.to_nat row) (data m))
  else m.

(** A fresh [nrows × ncols] matrix whose sample at [(r, c)] is [f r c]. *)
Definition tabulate (nrows ncols : Z) (f : Z → Z → A) : Mat A :=
  mkMat nrows ncols ((λ r, (λ c, f r c) <$> seqZ 0 ncols) <$> seqZ 0 nrows).

Definition sameSize {B} (m : Mat A) (n : Mat B) : bool :=
  bool_decide (rows m = rows n) && bool_decide (cols m = cols n).

(** [m.empty()] *)
Definition Mat_empty (m : Mat A) : bool :=
  bool_decide (rows m = 0) || bool_decide (cols m = 0).

(** [m(Rect(x, y, width, height))] followed by a copy of the view;
    OpenCV checks that the rectangle lies inside the matrix. *)
Definition Mat_roi (d : A) (m : Mat A) (r : Rect) : result (Mat A) :=
  if bool_decide (0 ≤ rx r ∧ 0 ≤ rwidth r ∧ rx r + rwidth r ≤ cols m ∧
                  0 ≤ ry r ∧ 0 ≤ rheight r ∧ ry r + rheight r ≤ rows m)
  then Ok (tabulate (rheight r) (rwidth r)
             (λ i j, Mat_at d m (ry r + i) (rx r + j)))
  else Err CvArgumentError.

(** [sub.copyTo(view)] where [view] is the window of [m] whose top-left
    corner is [(x, y)] and whose size is that of [sub]: the samples of
    [m] inside the window are replaced, the others stay. *)
Definition Mat_blit (d : A) (m : Mat A) (x y : Z) (sub : Mat A) : Mat A :=
  tabulate (rows m) (cols m)
    (λ i j, if bool_decide (y ≤ i < y + rows sub ∧ x ≤ j < x + cols sub)
            then Mat_at d sub (i - y) (j - x)
            else Mat_at d m i j).
End Mat.

(** [at<uchar>] and [at<float>] *)
Definition atu (m : Mat Z) (row col : Z) : Z := Mat_at 0 m row col.
Definition atf (m : Mat R) (row col : Z) : R := Mat_at 0%R m row col.

(** ** Floating-point division

    The quotient of two finite floats is finite unless the divisor is
    zero, in which case IEEE arithmetic produces an infinity or a NaN and
    raises nothing. *)

Inductive fval : Type :=
  | Finite (r : R)
  | NonFinite.

Definition fdiv (a b : R) : fval :=
  if Req_dec_T b 0 then NonFinite else Finite (a / b).

Definition Rsum (l : list R) : R := foldr Rplus 0%R l.

(** ** The OpenCV routines the code calls

    These are library routines; they are written here after the OpenCV
    reference manual, as far as the code depends on them. *)

(** [Mat::ones(size, CV_8U)] *)
Definition Mat_ones (nrows ncols : Z) : Mat Z := tabulate nrows ncols (λ _ _, 1).

(** [Mat::zeros(size, CV_8U)] *)
Definition Mat_zeros (nrows ncols : Z) : Mat Z := tabulate nrows ncols (λ _ _, 0).

(** [mean(src, mask)[0]]: the mean of the samples whose mask byte is
    nonzero, of all samples for an empty mask, and 0 when there is none. *)
Definition mean (src : Mat R) (mask : Mat Z) : result R :=
  if negb (Mat_empty mask) && negb (sameSize src mask) then Err CvArgumentError
  else
    let '(s, nz) :=
      forZ 0 (rows src) (λ row,
        forZ 0 (cols src) (λ col '(s, nz),
          if Mat_empty mask || negb (atu mask row col =? 0)
          then ((s + atf src row col)%R, nz + 1)
          else (s, nz)))
        (0%R, 0) in
    Ok (if nz =? 0 then 0%R else (s / IZR nz)%R).

(** [copyMakeBorder(src, dst, top, bottom, left, right, BORDER_CONSTANT, 0)] *)
Definition copyMakeBorder (src : Mat R) (top bottom left right : Z)
    : result (Mat R) :=
  if bool_decide (0 ≤ top ∧ 0 ≤ bottom ∧ 0 ≤ left ∧ 0 ≤ right) then
    Ok (tabulate (rows src + top + bottom) (cols src + left + right)
          (λ i j, if bool_decide (top ≤ i < top + rows src ∧
                                  left ≤ j < left + cols src)
                  then atf src (i - top) (j - left)
                  else 0%R))
  else Err CvArgumentError.

(** [flip(src, dst, -1)]: around both axes. *)
Definition flip (src : Mat R) : Mat R :=
  tabulate (rows src) (cols src)
    (λ i j, atf src (rows src - 1 - i) (cols src - 1 - j)).

(** [borderInterpolate(p, len, BORDER_REFLECT_101)], the default border
    of [filter2D]: [gfedcb|abcdefgh|gfedcba]. *)
Fixpoint reflect101 (fuel : nat) (p len : Z) : Z :=
  match fuel with
  | O => p
  | S fuel' =>
      let p' := if p <? 0 then - p - 1 + 1 else len - 1 - (p - len) - 1 in
      if (0 <=? p') && (p' <? len) then p' else reflect101 fuel' p' len
  end.

Definition borderInterpolate (p len : Z) : Z :=
  if (0 <=? p) && (p <? len) then p
  else if len =? 1 then 0
  else reflect101 (S (Z.to_nat (Z.abs p))) p len.

(** [filter2D(src, dst, -1, kernel, anchor)]: a correlation,
    [dst(y, x) = Σ kernel(i, j) · src(y + i - anchor.y, x + j - anchor.x)],
    samples outside [src] being taken by reflection. *)
Definition filter2D (src kernel : Mat R) (anchor : Point) : Mat R :=
  tabulate (rows src) (cols src)
    (λ y x, Rsum (i ← seqZ 0 (rows kernel); j ← seqZ 0 (cols kernel);
                  [(atf kernel i j *
                    atf src (borderInterpolate (y + i - py anchor) (rows src))
                            (borderInterpolate (x + j - px anchor) (cols src)))%R])).

(** [minMaxLoc(src, &min, &max)] *)
Definition minMaxLoc (src : Mat R) : R * R :=
  match concat (data src) with
  | [] => (0%R, 0%R)
  | x :: l => (foldl Rmin x l, foldl Rmax x l)
  end.

(** [split] and [merge] for two-channel matrices *)
Definition split (src : Mat (R * R)) : list (Mat R) :=
  [ tabulate (rows src) (cols src) (λ i j, fst (Mat_at (0%R, 0%R) src i j));
    tabulate (rows src) (cols src) (λ i j, snd (Mat_at (0%R, 0%R) src i j)) ].

(** [src.copyTo(dst, mask)]: [dst] is reallocated and cleared when its
    size is not that of [src]; then the samples under a nonzero mask byte
    are copied. *)
Definition copyTo_mask (src dst mask : Mat Z) : result (Mat Z) :=
  if sameSize src mask then
    let dst0 := if sameSize dst src then dst
                else Mat_zeros (rows src) (cols src) in
    Ok (tabulate (rows src) (cols src)
          (λ i j, if atu mask i j =? 0 then atu dst0 i j else atu src i j))
  else Err CvArgumentError.

(** ** Correlation metric: [crossCorrelation] *)

Definition crossCorrelation (X Y : Mat R) (mask : Mat Z) : result fval :=
  _ ← assert (sameSize X Y);
  let region := if Mat_empty mask then Mat_ones (rows X) (cols X) else mask in
  meanX ← mean X mask;
  meanY ← mean Y mask;
  _ ← assert (sameSize X Y);
  let '(E, deviationX, deviationY) :=
    forZ 0 (rows X) (λ row,
      forZ 0 (cols X) (λ col '(E, deviationX, deviationY),
        if 0 <? atu region row col then
          let valueX := (atf X row col - meanX)%R in
          let valueY := (atf Y row col - meanY)%R in
          ((E + valueX * valueY)%R,
           (deviationX + valueX * valueX)%R,
           (deviationY + valueY * valueY)%R)
        else (E, deviationX, deviationY)))
      (0%R, 0%R, 0%R) in
  let deviationX := sqrt deviationX in
  let deviationY := sqrt deviationY in
  Ok (fdiv E (deviationX * deviationY)).

(** ** Shape-aware convolution: [conv2] *)

(** The enumeration of [utils.hpp]; a C++ enumeration variable can hold
    other values, which is what the [default] label of the switch is for. *)
Inductive ConvShape : Type :=
  | FULL
  | SAME
  | VALID
  | OtherShape (n : Z).

Definition conv2 (src kernel : Mat R) (shape : ConvShape) : result (Mat R) :=
  let padSizeX := cols kernel - 1 in
  let padSizeY := rows kernel - 1 in
  zeroPadded ← copyMakeBorder src padSizeY padSizeY padSizeX padSizeX;
  let anchor := mkPoint 0 0 in
  let fkernel := flip kernel in
  let tmp := filter2D zeroPadded fkernel anchor in
  match shape with
  | FULL =>
      Mat_roi 0%R tmp (mkRect 0 0 (cols tmp - padSizeX) (rows tmp - padSizeY))
  | SAME =>
      Mat_roi 0%R tmp (mkRect ((cols tmp - padSizeX - cols src + 1) ÷ 2)
                              ((rows tmp - padSizeY - rows src + 1) ÷ 2)
                              (cols src)
                              (rows src))
  | VALID =>
      let width := cols src - cols kernel + 1 in
      let height := rows src - rows kernel + 1 in
      Mat_roi 0%R tmp (mkRect ((cols tmp - padSizeX - width) ÷ 2)
                              ((rows tmp - padSizeY - height) ÷ 2)
                              width
                              height)
  | OtherShape _ => Err RuntimeError
  end.

(** ** Quadrant swap: [swapQuadrants]

    The four quadrants are views into [image]; a [copyTo] into a view of
    the right size writes through to [image]. *)

Definition swapQuadrants {A} (d : A) (image : Mat A) : result (Mat A) :=
  let cx := cols image ÷ 2 in
  let cy := rows image ÷ 2 in
  let q0 := mkRect 0 0 cx cy in
  let q1 := mkRect cx 0 cx cy in
  let q2 := mkRect 0 cy cx cy in
  let q3 := mkRect cx cy cx cy in
  tmp ← Mat_roi d image q0;
  v3 ← Mat_roi d image q3;
  let image := Mat_blit d image (rx q0) (ry q0) v3 in
  let image := Mat_blit d image (rx q3) (ry q3) tmp in
  tmp ← Mat_roi d image q1;
  v2 ← Mat_roi d image q2;
  let image := Mat_blit d image (rx q1) (ry q1) v2 in
  let image := Mat_blit d image (rx q2) (ry q2) tmp in
  Ok image.

(** ** Edge taper: the scan state and [fillPixel] *)

Definition Point_eqb (p q : Point) : bool :=
  (px p =? px q) && (py p =? py q).

(** [Point(-1, -1)], the mark for "not inside a region" *)
Definition noPoint : Point := mkPoint (-1) (-1).

(** [uchar threshold = 0;] *)
Definition threshold : Z := 0.

Definition fillPixel (image : Mat Z) (start end_ : Point) (color : Z) : Mat Z :=
  forZ (py start) (py end_ - py start + 1) (λ row,
    forZ (px start) (px end_ - px start + 1) (λ col image,
      Mat_set image row col color))
    image.

(** The variables the three scans of [edgeTaper] share: [left], [start]
    and the image that is being filled. *)
Record Scan : Type := mkScan {
  left : Z;
  start : Point;
  canvas : Mat Z
}.

(** Body of the first scan (rows, then columns), writing to
    [taperedHorizontal]. *)
Definition horizontalStep (src : Mat Z) (row col : Z) (st : Scan) : Scan :=
  let value := atu src row col in
  if negb (Point_eqb (start st) noPoint) then
    if (threshold <? value) || (col =? cols src - 1) then
      let end_ := mkPoint (col - ((col - px (start st)) ÷ 2))
                          (row - ((row - py (start st)) ÷ 2)) in
      let left := if px (start st) =? 0 then value else left st in
      let canvas := fillPixel (canvas st) (start st) end_ left in
      let value := if col =? cols src - 1 then left else value in
      let canvas := fillPixel canvas end_ (mkPoint col row) value in
      mkScan left noPoint canvas
    else st
  else
    if value <=? threshold then
      mkScan (if 0 <? col then atu src row (col - 1) else 0)
             (mkPoint col row) (canvas st)
    else st.

Definition horizontalScan (src : Mat Z) : Scan :=
  forZ 0 (rows src) (λ row, forZ 0 (cols src) (λ col, horizontalStep src row col))
    (mkScan 0 noPoint src).

Definition taperedHorizontal (src : Mat Z) : Mat Z := canvas (horizontalScan src).

(** Body of the second scan (columns, then rows), writing to
    [taperedVertical]. *)
Definition verticalStep (src : Mat Z) (col row : Z) (st : Scan) : Scan :=
  let value := atu src row col in
  if negb (Point_eqb (start st) noPoint) then
    if (threshold <? value) || (row =? rows src - 1) then
      let end_ := mkPoint (col - ((col - px (start st)) ÷ 2))
                          (row - ((row - py (start st)) ÷ 2)) in
      let left := if py (start st) =? 0 then value else left st in
      let canvas := fillPixel (canvas st) (start st) end_ left in
      let value := if row =? rows src - 1 then left else value in
      let canvas := fillPixel canvas end_ (mkPoint col row) value in
      mkScan left noPoint canvas
    else st
  else
    if value <=? threshold then
      mkScan (if 0 <? row then atu src (row - 1) col else 0)
             (mkPoint col row) (canvas st)
    else st.

Definition taperedVertical (src : Mat Z) : Mat Z :=
  canvas (forZ 0 (cols src) (λ col, forZ 0 (rows src) (λ row, verticalStep src col row))
            (mkScan 0 noPoint src)).

(** Body of the third scan: the regions are now the stretches inside the
    mask, and the scan reads and writes [dst]. *)
Definition maskStep (src mask : Mat Z) (row col : Z) (st : Scan) : Scan :=
  let value := atu (canvas st) row col in
  if negb (Point_eqb (start st) noPoint) then
    if (atu mask row col =? 0) || (col =? cols src - 1) then
      let end_ := mkPoint (col - ((col - px (start st)) ÷ 2))
                          (row - ((row - py (start st)) ÷ 2)) in
      let left := if px (start st) =? 0 then value else left st in
      let canvas := fillPixel (canvas st) (start st) end_ left in
      let value := if col =? cols src - 1 then left else value in
      let canvas := fillPixel canvas end_ (mkPoint col row) value in
      mkScan left noPoint canvas
    else st
  else
    if 0 <? atu mask row col then
      mkScan (if 0 <? col then atu (canvas st) row (col - 1) else 0)
             (mkPoint col row) (canvas st)
    else st.

Definition maskScan (src mask dst : Mat Z) : Mat Z :=
  canvas (forZ 0 (rows src) (λ row, forZ 0 (cols src) (λ col, maskStep src mask row col))
            (mkScan 0 noPoint dst)).

(** ** The routines that depend on floating-point rounding

    [normalize], [GaussianBlur] and the rounding of [addWeighted] are
    OpenCV numerics that the claims do not depend on; the vector overload
    of [normalizeOne] is declared in [utils.hpp] only.  They are the
    variables of this section. *)

Inductive CvMat : Type :=
  | Mat1 (m : Mat R)          (* one channel *)
  | Mat2 (m : Mat (R * R))    (* two channels *)
  | MatN.                     (* any other number of channels *)

Section Numerics.
(** [normalize(src, dst, a, b, NORM_MINMAX)] *)
Variable normalize : Mat R → fval → fval → Mat R.
(** [normalizeOne(vector<Mat>&, vector<Mat>&)] *)
Variable normalizeOneChannels : list (Mat R) → list (Mat R).
(** [saturate_cast<uchar>] of a weighted sum *)
Variable saturate_uchar : R → Z.
(** the sample at [(row, col)] of [GaussianBlur(src, dst, Size(k, k), 0, 0)] *)
Variable gaussianSample : Mat Z → Z → Z → Z → Z.

Definition merge (channels : list (Mat R)) : result CvMat :=
  match channels with
  | [re; im] =>
      if sameSize re im then
        Ok (Mat2 (tabulate (rows re) (cols re) (λ i j, (atf re i j, atf im i j))))
      else Err CvArgumentError
  | _ => Err CvArgumentError
  end.

Definition normalizeOne (src : CvMat) : result CvMat :=
  match src with
  | Mat1 m =>
      let '(min, max) := minMaxLoc m in
      let scale := Rmax (Rabs min) (Rabs max) in
      Ok (Mat1 (normalize m (fdiv min scale) (fdiv max scale)))
  | Mat2 m =>
      let channels := split m in
      let tmp := normalizeOneChannels channels in
      merge tmp
  | MatN => Err AssertionFailed
  end.

(** [addWeighted(src1, alpha, src2, beta, gamma, dst)] *)
Definition addWeighted (src1 : Mat Z) (alpha : R) (src2 : Mat Z) (beta gamma : R)
    : result (Mat Z) :=
  if sameSize src1 src2 then
    Ok (tabulate (rows src1) (cols src1)
          (λ i j, saturate_uchar (alpha * IZR (atu src1 i j) +
                                  beta * IZR (atu src2 i j) + gamma)%R))
  else Err CvArgumentError.

(** [GaussianBlur(src, dst, Size(ksize, ksize), 0, 0, BORDER_DEFAULT)] *)
Definition GaussianBlur (src : Mat Z) (ksize : Z) : Mat Z :=
  tabulate (rows src) (cols src) (λ i j, gaussianSample src ksize i j).

Definition edgeTaper (src mask image : Mat Z) : result (Mat Z) :=
  let taperedHorizontal := taperedHorizontal src in
  let taperedVertical := taperedVertical src in
  dst ← addWeighted taperedHorizontal 0.5 taperedVertical 0.5 0.0;
  let dst := maskScan src mask dst in
  let imageGauss := GaussianBlur image 19 in
  dst ← addWeighted dst 0.7 imageGauss 0.3 0.0;
  let dst := GaussianBlur dst 51 in
  copyTo_mask src dst mask.
End Numerics.

(** ** The quantities of the specification of the correlation metric

    These follow the words of the specification: the active samples, their
    mean, and the sums [E], [DX] and [DY] over them. *)

(** The positions of a grid in reading order *)
Definition positions (nrows ncols : Z) : list (Z * Z) :=
  row ← seqZ 0 nrows; col ← seqZ 0 ncols; [(row, col)].

(** A sample is active when the mask is absent or its byte is nonzero. *)
Definition active (mask : Mat Z) (p : Z * Z) : bool :=
  Mat_empty mask || negb (atu mask p.1 p.2 =? 0).

Definition activePositions (X : Mat R) (mask : Mat Z) : list (Z * Z) :=
  filter (λ p, active mask p = true) (positions (rows X) (cols X)).

Definition maskedMean (X : Mat R) (mask : Mat Z) : R :=
  let ps := activePositions X mask in
  if bool_decide (ps = []) then 0%R
  else (Rsum ((λ p, atf X p.1 p.2) <$> ps) / IZR (Z.of_nat (length ps)))%R.

Definition covarianceSum (X Y : Mat R) (mask : Mat Z) : R :=
  Rsum ((λ p, (atf X p.1 p.2 - maskedMean X mask) *
              (atf Y p.1 p.2 - maskedMean Y mask))%R
        <$> activePositions X mask).

Definition deviationSum (X : Mat R) (mask : Mat Z) : R :=
  sqrt (Rsum ((λ p, (atf X p.1 p.2 - maskedMean X mask) *
                    (atf X p.1 p.2 - maskedMean X mask))%R
              <$> activePositions X mask)).

(** [-X] *)
Definition Mat_opp (X : Mat R) : Mat R :=
  mkMat (rows X) (cols X) ((λ r : list R, Ropp <$> r) <$> data X).

(** Masks and 8-bit images hold bytes. *)
Definition ucharMat (m : Mat Z) : Prop :=
  Forall (Forall (λ v, 0 ≤ v < 256)) (data m).

(** ** Derived quantities used in the statements *)

(** The sum of the squared deviations, the common value of
    [Σ (x-μ)(x-μ)] in [E] and under the square root of [DX]. *)
Definition squareSum (X : Mat R) (mask : Mat Z) : R :=
  Rsum ((λ p, (atf X p.1 p.2 - maskedMean X mask) *
              (atf X p.1 p.2 - maskedMean X mask))%R
        <$> activePositions X mask).

(** [swapQuadrants]: where the sample that ends at index [i] comes from,
    [c] being half the extent *)
Definition swapSource (c i : Z) : Z :=
  if i <? c then i + c else if i <? 2 * c then i - c else i.

(** The four ways a step of the horizontal scan can go *)
Inductive StepKind : Type := Closing | Inside | Opening | Outside.

Definition stepKind (src : Mat Z) (row col : Z) (st : Scan) : StepKind :=
  if negb (Point_eqb (start st) noPoint) then
    if (threshold <? atu src row col) || (col =? cols src - 1)
    then Closing else Inside
  else if atu src row col <=? threshold then Opening else Outside.

(** The column and the row at which a region is split *)
Definition splitX (col : Z) (st : Scan) : Z := col - (col - px (start st)) ÷ 2.
Definition splitY (row : Z) (st : Scan) : Z := row - (row - py (start st)) ÷ 2.

(** The colours of the first and of the second half *)
Definition firstColour (src : Mat Z) (row col : Z) (st : Scan) : Z :=
  if px (start st) =? 0 then atu src row col else left st.
Definition secondColour (src : Mat Z) (row col : Z) (st : Scan) : Z :=
  if col =? cols src - 1 then firstColour src row col st else atu src row col.

(** The canvas keeps the shape of the source. *)
Definition canvasOK (src : Mat Z) (st : Scan) : Prop :=
  wfMat (canvas st) ∧
  rows (canvas st) = rows src ∧ cols (canvas st) = cols src.

Definition sizeOf (src : Mat Z) (st : Scan) : Prop :=
  rows (canvas st) = rows src ∧ cols (canvas st) = cols src.

(** While the scan is in row [row], an open region started inside the
    image, in that row or above. *)
Definition reach (src : Mat Z) (row : Z) (st : Scan) : Prop :=
  start st = noPoint ∨
  (0 ≤ px (start st) < cols src ∧ 0 ≤ py (start st) ≤ row).

(** From now on the sample at [(r, k)] is out of the reach of the scan. *)
Definition settled (r k row : Z) (st : Scan) : Prop :=
  start st = noPoint ∨
  (py (start st) ≤ row ∧
   (r < py (start st) ∨ (py (start st) = r ∧ k < px (start st)))).

(** The scan of one row, and the scan up to a sample *)
Definition scanRow (src : Mat Z) (row : Z) (st : Scan) : Scan :=
  forZ 0 (cols src) (λ col, horizontalStep src row col) st.

Definition scanBefore (src : Mat Z) (row col : Z) : Scan :=
  forZ 0 col (λ col, horizontalStep src row col)
    (forZ 0 row (scanRow src) (mkScan 0 noPoint src)).

(** A region stays open past the end of a row exactly when the last
    sample of the row is zero and the one before it is not. *)
Definition pendingRow (src : Mat Z) (row : Z) : bool :=
  (atu src row (cols src - 1) <=? 0) && (0 <? atu src row (cols src - 2)).

(** Columns [s..e] of row [r] are zero, with a nonzero sample on either
    side. *)
Definition zeroRun (src : Mat Z) (r s e : Z) : Prop :=
  1 ≤ s ≤ e ∧ e + 1 < cols src ∧
  atu src r (s - 1) ≠ 0 ∧
  (∀ k, s ≤ k ≤ e → atu src r k = 0) ∧
  atu src r (e + 1) ≠ 0.

(** The fill of a run with the midpoint [m = e - (e-s)/2] *)
Definition midpointFill (src : Mat Z) (r s e : Z) : Prop :=
  let m := e - (e - s) ÷ 2 in
  (∀ k, s ≤ k ≤ m → atu (taperedHorizontal src) r k = atu src r (s - 1)) ∧
  (∀ k, m < k ≤ e → atu (taperedHorizontal src) r k = atu src r (e + 1)).

(** The fill with zero of the first half of a run over columns [0..e] *)
Definition leftBorderZeroFill (src : Mat Z) (r e : Z) : Prop :=
  let m := e - (e - 0) ÷ 2 in
  ∀ k, 0 ≤ k ≤ m → atu (taperedHorizontal src) r k = 0.

(** ** Concrete inputs *)

(** The example of the comment in [conv2]: one row of the source and of
    the kernel. *)
Definition exampleRow : Mat R := mkMat 1 4 [[1; 2; 3; 4]%R].
Definition exampleKernel : Mat R := mkMat 1 3 [[0.5; 0; 0.5]%R].

Definition noMask : Mat Z := mkMat 0 0 [].
Definition exampleMask : Mat Z := mkMat 1 4 [[1; 0; 255; 1]].
Definition constantRow : Mat R := mkMat 1 2 [[1; 1]%R].
Definition zeroRow : Mat R := mkMat 1 2 [[0; 0]%R].

(** A one-row 8-bit image *)
Definition rowImage (l : list Z) : Mat Z := mkMat 1 (Z.of_nat (length l)) [l].

(** Stand-ins for the OpenCV numerics: rounding to the nearest byte and
    a blur that leaves the image as it is. *)
Definition roundToUchar (x : R) : Z := Z.max 0 (Z.min 255 (Int_part (x + 0.5))).
Definition noBlur (src : Mat Z) (ksize row col : Z) : Z := atu src row col.

(** ** Reference quantities for the further properties *)

(** The linear convolution of [src] with [kernel] at [(y, x)], samples
    outside [src] being zero *)
Definition linearConvolution (src kernel : Mat R) (y x : Z) : R :=
  Rsum (a ← seqZ 0 (rows kernel); b ← seqZ 0 (cols kernel);
        [(atf kernel a b * atf src (y - a) (x - b))%R]).

(** The filtered, padded image of [conv2] *)
Definition conv2Padded (src kernel : Mat R) : Mat R :=
  filter2D (tabulate (rows src + (rows kernel - 1) + (rows kernel - 1))
                     (cols src + (cols kernel - 1) + (cols kernel - 1))
              (λ i j, if bool_decide (rows kernel - 1 ≤ i < rows kernel - 1 + rows src ∧
                                      cols kernel - 1 ≤ j < cols kernel - 1 + cols src)
                      then atf src (i - (rows kernel - 1)) (j - (cols kernel - 1))
                      else 0%R))
           (flip kernel) (mkPoint 0 0).

(** A value that the fill scans can write: zero or a sample of the source *)
Definition sourceValue (src : Mat Z) (v : Z) : Prop :=
  v = 0 ∨ ∃ i j, 0 ≤ i < rows src ∧ 0 ≤ j < cols src ∧ atu src i j = v.

(** The transposed image *)
Definition Mat_transpose (m : Mat Z) : Mat Z :=
  tabulate (cols m) (rows m) (λ i j, atu m j i).

(** The state of the vertical scan of [src] and the state of the
    horizontal scan of the transposed image, at corresponding steps *)
Definition transposedScan (stV stH : Scan) : Prop :=
  left stH = left stV ∧
  px (start stH) = py (start stV) ∧ py (start stH) = px (start stV) ∧
  wfMat (canvas stV) ∧ wfMat (canvas stH) ∧
  rows (canvas stH) = cols (canvas stV) ∧
  cols (canvas stH) = rows (canvas stV) ∧
  ∀ i j, atu (canvas stH) i j = atu (canvas stV) j i.

(** ** Display helpers: [convertFloatToUchar], [showFloat], [showGradients]

    [imshow] and [imwrite] are recorded as the events they cause; an
    [imshow] of an image without samples is an error of the library. *)

Definition Rleb (x y : R) : bool := if Rle_dec x y then true else false.
Definition Rltb (x y : R) : bool := if Rlt_dec x y then true else false.

(** [m -= c] *)
Definition Mat_subtract (m : Mat R) (c : R) : Mat R :=
  mkMat (rows m) (cols m) ((λ r : list R, (λ x, x - c)%R <$> r) <$> data m).

(** [Mat::zeros(size, CV_32F)] *)
Definition Mat_zerosF (nrows ncols : Z) : Mat R := tabulate nrows ncols (λ _ _, 0%R).

Inductive Event : Type :=
  | Imshow (name : string) (image : Mat Z)         (* [imshow] of an 8-bit image *)
  | ImshowFloat (name : string) (image : Mat R)    (* [imshow] of a float image *)
  | Imwrite (filename : string) (image : Mat Z).   (* [imwrite] *)

(** [imshow(name, image)]: the library rejects an image without samples. *)
Definition imshow {A} (shown : Mat A → Event) (image : Mat A) : result (list Event) :=
  if Mat_empty image then Err CvArgumentError else Ok [shown image].

(** The largest finite binary32 number *)
Definition FLT_MAX : R := ((2 - / 2 ^ 23) * 2 ^ 127)%R.

(** A sample whose square is zero or a normal binary32 number: it neither
    overflows nor underflows *)
Definition moderate32 (x : R) : Prop :=
  x = 0%R ∨ (/ 2 ^ 63 <= Rabs x <= 2 ^ 63)%R.

Section Display.
(** [src.convertTo(dst, CV_8U, alpha)] *)
Variable convertTo : Mat R → fval → Mat Z.

Definition convertFloatToUchar (src : Mat R) : Mat Z :=
  let '(min, max) := minMaxLoc src in
  if Rleb 0 min && Rltb max 1 then
    convertTo src (Finite 255)
  else
    let copy := Mat_subtract src min in
    let '(min, max) := minMaxLoc copy in
    if Rltb max 1 then convertTo copy (Finite 255)
    else convertTo copy (fdiv 255 (max - min)).

Definition showFloat (name : string) (src : CvMat) (write : bool)
    : result (list Event) :=
  match src with
  | Mat1 m =>
      let srcUchar := convertFloatToUchar m in
      shown ← imshow (Imshow name) srcUchar;
      Ok (shown ++ if write then [Imwrite (name +:+ ".png") srcUchar] else [])
  | _ => Err AssertionFailed
  end.

Definition showGradients (name : string) (src : CvMat) (write : bool)
    : result (list Event) :=
  match src with
  | Mat1 m =>
      let '(min, max) := minMaxLoc m in
      let copy := Mat_subtract m min in
      let '(min, max) := minMaxLoc copy in
      let srcUchar := convertTo copy (fdiv 255 (max - min)) in
      shown ← imshow (Imshow name) srcUchar;
      Ok (shown ++ if write then [Imwrite (name +:+ ".png") srcUchar] else [])
  | _ => Err AssertionFailed
  end.
End Display.

(** ** Fourier transform: [fft] and [dft] *)

Section Fourier.
(** [cv::dft(src, dst, DFT_COMPLEX_OUTPUT)] of a two-channel matrix *)
Variable cvDft : Mat (R * R) → Mat (R * R).
(** [getOptimalDFTSize] *)
Variable getOptimalDFTSize : Z → Z.

(** [cv::dft(dst, dst, DFT_COMPLEX_OUTPUT)]: real input is transformed as
    complex input with zero imaginary parts; other types are rejected. *)
Definition dftComplexOutput (dst : CvMat) : result CvMat :=
  match dst with
  | Mat1 m =>
      Ok (Mat2 (cvDft (tabulate (rows m) (cols m) (λ i j, (atf m i j, 0%R)))))
  | Mat2 c => Ok (Mat2 (cvDft c))
  | MatN => Err CvArgumentError
  end.

(** [dft(src, dst)] of this file, on a one-channel float matrix *)
Definition dft (src : Mat R) : result CvMat :=
  let planes := [src; Mat_zerosF (rows src) (cols src)] in
  dst ← merge planes;
  dftComplexOutput dst.

Definition fft (src : CvMat) : result CvMat :=
  dst ← match src with
        | Mat1 m =>
            let m' := getOptimalDFTSize (rows m) in
            let n := getOptimalDFTSize (cols m) in
            padded ← copyMakeBorder m 0 (m' - rows m) 0 (n - cols m);
            let planes := [padded; Mat_zerosF (rows padded) (cols padded)] in
            merge planes
        | Mat2 c => Ok (Mat2 c)
        | MatN => Err AssertionFailed
        end;
  dftComplexOutput dst.
End Fourier.

(** ** Spectrum display: [showComplexImage] *)

(** [magnitude(x, y, dst)] *)
Definition magnitude (x y : Mat R) : Mat R :=
  tabulate (rows x) (cols x)
    (λ i j, sqrt (atf x i j * atf x i j + atf y i j * atf y i j)).

Section Spectrum.
(** [normalize(src, dst, a, b, NORM_MINMAX)] *)
Variable normalize : Mat R → fval → fval → Mat R.

Definition showComplexImage (windowName : string) (complex : Mat (R * R))
    : result (list Event) :=
  match split complex with
  | [re; im] =>
      let magI := magnitude re im in
      let magI := tabulate (rows magI) (cols magI) (λ i j, (atf magI i j + 1)%R) in
      let magI := tabulate (rows magI) (cols magI) (λ i j, ln (atf magI i j)) in
      magI ← Mat_roi 0%R magI (mkRect 0 0 (Z.land (cols magI) (-2))
                                          (Z.land (rows magI) (-2)));
      magI ← swapQuadrants 0%R magI;
      let magI := normalize magI (Finite 0) (Finite 1) in
      imshow (ImshowFloat windowName) magI
  | _ => Err CvArgumentError
  end.
End Spectrum.

(** ** Gradient magnitude and real part: [normedGradients], [realMat] *)

Definition normedGradients (gradients : Mat R * Mat R) : Mat R :=
  let gradient := Mat_zerosF (rows gradients.1) (cols gradients.1) in
  forZ 0 (rows gradient) (λ row,
    forZ 0 (cols gradient) (λ col gradient,
      let value := (atf gradients.1 row col * atf gradients.1 row col
                    + atf gradients.2 row col * atf gradients.2 row col)%R in
      Mat_set gradient row col (sqrt value)))
    gradient.

Definition realMat (src : CvMat) : result (Mat R) :=
  match src with
  | Mat2 m =>
      match split m with
      | re :: _ => Ok re
      | [] => Err CvArgumentError
      end
  | _ => Err AssertionFailed
  end.

(** ** Binary32 arithmetic: a second reading of [crossCorrelation]

    Where a claim is about rounding, [crossCorrelation] is read a second
    time with every [float] operation rounding to binary32 as IEEE 754
    prescribes (to nearest, ties to even, with gradual underflow and
    overflow to infinity): the operations are those of the Standard
    Library's [SpecFloat] at precision 24 and maximal exponent 128.  Each
    operation of the source rounds once (no fused multiply-add, no wider
    intermediate format). *)

Definition float32 : Type := SpecFloat.spec_float.



Section Binary32.
(** The value of [mean(src, mask)[0]] once it is stored in a [float]; the
    library accumulates it in double precision in an order of its own. *)
Variable meanValue : Mat float32 → Mat Z → float32.



End Binary32.



(** Two binary32 values that are equal, or both a zero of either sign *)
Definition sameValue (a b : float32) : Prop :=
  match a, b with
  | SpecFloat.S754_zero _, SpecFloat.S754_zero _ => True
  | _, _ => a = b
  end.






(** ** Facts about matrices *)

Section MatFacts.
Context {A : Type}.
Implicit Types (m : Mat A) (d : A).

Lemma lookupZ_Some {B} (l : list B) (i : Z) (x : B) :
  lookupZ l i = Some x ↔ 0 ≤ i ∧ l !! Z.to_nat i = Some x.
Proof.
  unfold lookupZ. case_bool_decide; [tauto|].
  split; [done|]. intros [? _]. lia.
Qed.

Lemma lookupZ_seqZ_fmap {B} (f : Z → B) (n i : Z) :
  0 ≤ i < n → lookupZ (f <$> seqZ 0 n) i = Some (f i).
Proof.
  intros Hi. unfold lookupZ. rewrite bool_decide_eq_true_2 by lia.
  rewrite list_lookup_fmap, lookup_seqZ_lt by lia. simpl.
  by rewrite Z2Nat.id by lia.
Qed.

Lemma tabulate_at d nrows ncols (f : Z → Z → A) (i j : Z) :
  0 ≤ i < nrows → 0 ≤ j < ncols →
  Mat_at d (tabulate nrows ncols f) i j = f i j.
Proof.
  intros Hi Hj. unfold Mat_at, tabulate. simpl.
  rewrite lookupZ_seqZ_fmap by done. simpl.
  rewrite lookupZ_seqZ_fmap by done. done.
Qed.

Lemma tabulate_wf nrows ncols (f : Z → Z → A) :
  0 ≤ nrows → 0 ≤ ncols → wfMat (tabulate nrows ncols f).
Proof.
  intros Hr Hc. unfold wfMat, tabulate. simpl.
  repeat split; try done.
  - by rewrite length_fmap, length_seqZ.
  - apply Forall_fmap, Forall_forall. intros r _. simpl.
    by rewrite length_fmap, length_seqZ.
Qed.

(** Two well-formed matrices of one size with the same samples are
    the same matrix. *)
Lemma Mat_ext d m n :
  wfMat m → wfMat n → rows m = rows n → cols m = cols n →
  (∀ i j, 0 ≤ i < rows m → 0 ≤ j < cols m → Mat_at d m i j = Mat_at d n i j) →
  m = n.
Proof.
  destruct m as [rm cm dm], n as [rn cn dn]. simpl.
  intros (Hrm & Hcm & Hlm & Hfm) (Hrn & Hcn & Hln & Hfn) <- <- Hat.
  simpl in *. f_equal.
  apply list_eq_same_length with (Z.to_nat rm); [done..|].
  intros i r1 r2 Hi H1 H2.
  pose proof (Forall_lookup_1 _ _ _ _ Hfm H1) as Hl1.
  pose proof (Forall_lookup_1 _ _ _ _ Hfn H2) as Hl2. simpl in Hl1, Hl2.
  apply list_eq_same_length with (Z.to_nat cm); [done..|].
  intros j x1 x2 Hj Hx1 Hx2.
  specialize (Hat (Z.of_nat i) (Z.of_nat j) ltac:(lia) ltac:(lia)).
  unfold Mat_at, lookupZ in Hat. simpl in Hat.
  rewrite !bool_decide_eq_true_2 in Hat by lia.
  rewrite !Nat2Z.id in Hat. rewrite H1, H2 in Hat. simpl in Hat.
  rewrite Hx1, Hx2 in Hat. done.
Qed.
End MatFacts.

(** ** Shape-aware convolution *)

Section Conv2.
Implicit Types (src kernel : Mat R).

Lemma Mat_roi_Ok {A} (d : A) (m : Mat A) (r : Rect) (h w : Z) :
  0 ≤ rx r → 0 ≤ rwidth r → rx r + rwidth r ≤ cols m →
  0 ≤ ry r → 0 ≤ rheight r → ry r + rheight r ≤ rows m →
  rheight r = h → rwidth r = w →
  ∃ dst, Mat_roi d m r = Ok dst ∧ wfMat dst ∧ rows dst = h ∧ cols dst = w.
Proof.
  intros ?????? <- <-. unfold Mat_roi. rewrite bool_decide_eq_true_2 by tauto.
  eexists. split; [done|]. split; [by apply tabulate_wf|done].
Qed.
End Conv2.

(** C1. For a source grid of size [r × c] and a kernel of size [kh × kw]
    with [kh, kw ≥ 1], [conv2] returns a grid of size
    [(r+kh-1) × (c+kw-1)] under FULL and of size [r × c] under SAME; when
    moreover [kh ≤ r] and [kw ≤ c] it returns a grid of size
    [(r-kh+1) × (c-kw+1)] under VALID. *)
Theorem conv2_output_size (src kernel : Mat R) :
  wfMat src → 1 ≤ rows kernel → 1 ≤ cols kernel →
  (∃ dst, conv2 src kernel FULL = Ok dst ∧ wfMat dst ∧
          rows dst = rows src + rows kernel - 1 ∧
          cols dst = cols src + cols kernel - 1) ∧
  (∃ dst, conv2 src kernel SAME = Ok dst ∧ wfMat dst ∧
          rows dst = rows src ∧ cols dst = cols src) ∧
  (rows kernel ≤ rows src → cols kernel ≤ cols src →
   ∃ dst, conv2 src kernel VALID = Ok dst ∧ wfMat dst ∧
          rows dst = rows src - rows kernel + 1 ∧
          cols dst = cols src - cols kernel + 1).
Proof.
  intros (Hr & Hc & _) Hkh Hkw.
  unfold conv2, copyMakeBorder. rewrite bool_decide_eq_true_2 by lia.
  change (Ok ?m ≫= ?k) with (k m). cbv beta zeta.
  split; [|split; [|intros Hvr Hvc]];
    apply Mat_roi_Ok; cbn [rx ry rwidth rheight rows cols filter2D tabulate];
    try lia; Z.to_euclidean_division_equations; lia.
Qed.

Lemma conv2_output_size_witness :
  ∃ dst, conv2 exampleRow exampleKernel VALID = Ok dst ∧ wfMat dst ∧
         rows dst = 1 ∧ cols dst = 2.
Proof.
  apply (conv2_output_size exampleRow exampleKernel);
    try (simpl; lia).
  repeat split; simpl; try lia. repeat constructor.
Defined.

(** C3. For the source row [1 2 3 4] and the kernel [0.5 0 0.5], VALID
    gives the row [2 3] and FULL the 1×6 row [0.5 1 2 3 1.5 2], whose
    first and last two samples are the contributions of the zero border. *)
Theorem conv2_example_row :
  conv2 exampleRow exampleKernel VALID = Ok (mkMat 1 2 [[2; 3]%R]) ∧
  conv2 exampleRow exampleKernel FULL =
    Ok (mkMat 1 6 [[0.5; 1; 2; 3; 1.5; 2]%R]).
Proof.
  split; cbv -[Rplus Rmult Rdiv IZR Rinv Rminus Ropp];
    repeat f_equal; lra.
Qed.

(** ** Loops over a grid *)

Section Loops.
Context {S : Type}.

Lemma forZ_ind (P : S → Prop) (lo n : Z) (body : Z → S → S) (st : S) :
  P st → (∀ i st, lo ≤ i < lo + n → P st → P (body i st)) →
  P (forZ lo n body st).
Proof.
  unfold forZ. intros Hst Hbody.
  assert (Forall (λ i, lo ≤ i < lo + n) (seqZ lo n)) as Hl
    by (apply Forall_seqZ; auto).
  revert st Hst. induction Hl as [|i l Hi _ IH]; intros st Hst; simpl; auto.
Qed.

Lemma forZ_nil (lo n : Z) (body : Z → S → S) (st : S) :
  n ≤ 0 → forZ lo n body st = st.
Proof. intros. unfold forZ. by rewrite seqZ_nil. Qed.

Lemma forZ_cons (lo n : Z) (body : Z → S → S) (st : S) :
  0 < n → forZ lo n body st = forZ (lo + 1) (n - 1) body (body lo st).
Proof. intros. unfold forZ. by rewrite seqZ_cons. Qed.

Lemma forZ_app (lo n1 n2 : Z) (body : Z → S → S) (st : S) :
  0 ≤ n1 → 0 ≤ n2 →
  forZ lo (n1 + n2) body st = forZ (lo + n1) n2 body (forZ lo n1 body st).
Proof. intros. unfold forZ. by rewrite seqZ_app, foldl_app. Qed.

Lemma forZ_one (lo : Z) (body : Z → S → S) (st : S) :
  forZ lo 1 body st = body lo st.
Proof. done. Qed.

Lemma forZ_nested (nrows ncols : Z) (f : Z → Z → S → S) (st : S) :
  forZ 0 nrows (λ row, forZ 0 ncols (λ col, f row col)) st =
  foldl (λ st p, f p.1 p.2 st) st (positions nrows ncols).
Proof.
  unfold forZ, positions. generalize (seqZ 0 nrows) as l.
  intros l. revert st. induction l as [|row l IH]; intros st; [done|].
  csimpl. rewrite foldl_app, <-IH. f_equal.
  generalize (seqZ 0 ncols) as k. intros k. revert st.
  induction k as [|col k IHk]; intros st; [done|].
  csimpl. by rewrite IHk.
Qed.
End Loops.

Lemma elem_of_positions (nrows ncols : Z) (p : Z * Z) :
  p ∈ positions nrows ncols ↔ 0 ≤ p.1 < nrows ∧ 0 ≤ p.2 < ncols.
Proof.
  unfold positions. rewrite list_elem_of_bind. split.
  - intros (row & Hp & Hrow). apply list_elem_of_bind in Hp as (col & Hp & Hcol).
    apply list_elem_of_singleton in Hp as ->. simpl.
    apply elem_of_seqZ in Hrow, Hcol. lia.
  - intros [Hrow Hcol]. exists p.1. split; [|apply elem_of_seqZ; lia].
    apply list_elem_of_bind. exists p.2.
    split; [|apply elem_of_seqZ; lia]. destruct p. apply list_elem_of_singleton.
    done.
Qed.

(** ** Correlation metric *)

Section Correlation.
Local Open Scope R_scope.
Implicit Types (X Y : Mat R) (mask : Mat Z) (l : list (Z * Z)).

Lemma Rsum_ext {B} (f g : B → R) (l : list B) :
  (∀ x, x ∈ l → f x = g x) → Rsum (f <$> l) = Rsum (g <$> l).
Proof.
  induction l as [|x l IH]; intros Hfg; [done|]. csimpl.
  rewrite Hfg by apply list_elem_of_here.
  rewrite IH; [done|]. intros y Hy. apply Hfg. by apply list_elem_of_further.
Qed.



(** The accumulation of [mean] over any list of positions *)
Lemma mean_accumulate X mask l (s : R) (nz : Z) :
  foldl (λ (st : R * Z) p,
           (let '(s, nz) := st in
            if Mat_empty mask || negb (atu mask p.1 p.2 =? 0)%Z
            then (s + atf X p.1 p.2, (nz + 1)%Z)
            else (s, nz))) (s, nz) l =
  (s + Rsum ((λ p, atf X p.1 p.2) <$> filter (λ p, active mask p = true) l),
   (nz + Z.of_nat (length (filter (λ p, active mask p = true) l)))%Z).
Proof.
  revert s nz. induction l as [|p l IH]; intros s nz.
  { simpl. f_equal; [lra|lia]. }
  simpl foldl. rewrite filter_cons.
  change (Mat_empty mask || negb (atu mask p.1 p.2 =? 0)%Z)
    with (active mask p).
  destruct (decide (active mask p = true)) as [->|Hact%not_true_is_false].
  - rewrite IH. csimpl. f_equal; [lra|lia].
  - rewrite Hact, IH. done.
Qed.

Lemma mean_eq X mask :
  Mat_empty mask = true ∨ sameSize X mask = true →
  mean X mask = Ok (maskedMean X mask).
Proof.
  intros Hmask. unfold mean.
  assert (negb (Mat_empty mask) && negb (sameSize X mask) = false) as ->
    by (destruct Hmask as [-> | ->]; [done|by rewrite andb_false_r]).
  rewrite (forZ_nested (rows X) (cols X)
    (λ row col '(s, nz),
       if Mat_empty mask || negb (atu mask row col =? 0)%Z
       then (s + atf X row col, (nz + 1)%Z) else (s, nz))).
  rewrite (mean_accumulate X mask). unfold maskedMean, activePositions.
  f_equal. rewrite Z.add_0_l, Rplus_0_l.
  destruct (filter _ _) as [|p ps] eqn:Hps.
  - by rewrite bool_decide_eq_true_2.
  - rewrite bool_decide_eq_false_2 by done.
    by assert ((Z.of_nat (length (p :: ps)) =? 0)%Z = false) as ->
      by (simpl; lia).
Qed.

Lemma atu_uchar (m : Mat Z) (i j : Z) :
  ucharMat m → (0 ≤ atu m i j < 256)%Z.
Proof.
  intros Hm. unfold atu, Mat_at.
  destruct (lookupZ (data m) i) as [r|] eqn:Hr; simpl; [|lia].
  destruct (lookupZ r j) as [v|] eqn:Hv; simpl; [|lia].
  apply lookupZ_Some in Hr as [_ Hr], Hv as [_ Hv].
  pose proof (Forall_lookup_1 _ _ _ _ Hm Hr) as Hrow. simpl in Hrow.
  apply (Forall_lookup_1 _ _ _ _ Hrow Hv).
Qed.

(** The test [region.at<uchar>(row, col) > 0] selects the active
    samples. *)
Lemma region_active X mask (p : Z * Z) :
  ucharMat mask → p ∈ positions (rows X) (cols X) →
  (0 <? atu (if Mat_empty mask then Mat_ones (rows X) (cols X) else mask)
            p.1 p.2)%Z = active mask p.
Proof.
  intros Hmask [Hrow Hcol]%elem_of_positions. unfold active.
  destruct (Mat_empty mask); simpl.
  - unfold atu, Mat_ones. by rewrite tabulate_at.
  - pose proof (atu_uchar mask p.1 p.2 Hmask).
    destruct (Z.eqb_spec (atu mask p.1 p.2) 0), (Z.ltb_spec 0 (atu mask p.1 p.2));
      simpl; try done; lia.
Qed.

(** The accumulation of [crossCorrelation] over a list of positions *)
Lemma correlation_accumulate X Y mask (region : Mat Z) (meanX meanY : R) l
    (E dX dY : R) :
  (∀ p, p ∈ l → (0 <? atu region p.1 p.2)%Z = active mask p) →
  foldl (λ (st : R * R * R) p,
           (let '(E, deviationX, deviationY) := st in
            if (0 <? atu region p.1 p.2)%Z then
              (E + (atf X p.1 p.2 - meanX) * (atf Y p.1 p.2 - meanY),
               deviationX + (atf X p.1 p.2 - meanX) * (atf X p.1 p.2 - meanX),
               deviationY + (atf Y p.1 p.2 - meanY) * (atf Y p.1 p.2 - meanY))
            else (E, deviationX, deviationY))) (E, dX, dY) l =
  (E + Rsum ((λ p, (atf X p.1 p.2 - meanX) * (atf Y p.1 p.2 - meanY))
             <$> filter (λ p, active mask p = true) l),
   dX + Rsum ((λ p, (atf X p.1 p.2 - meanX) * (atf X p.1 p.2 - meanX))
              <$> filter (λ p, active mask p = true) l),
   dY + Rsum ((λ p, (atf Y p.1 p.2 - meanY) * (atf Y p.1 p.2 - meanY))
              <$> filter (λ p, active mask p = true) l)).
Proof.
  revert E dX dY. induction l as [|p l IH]; intros E dX dY Hregion.
  { simpl. f_equal; [f_equal|]; lra. }
  simpl foldl. rewrite filter_cons.
  rewrite (Hregion p) by apply list_elem_of_here.
  assert (∀ q, q ∈ l → (0 <? atu region q.1 q.2)%Z = active mask q) as Hl
    by (intros q Hq; apply Hregion; by apply list_elem_of_further).
  destruct (decide (active mask p = true)) as [->|Hact%not_true_is_false].
  - rewrite IH by done. csimpl. f_equal; [f_equal|]; lra.
  - rewrite Hact, IH by done. done.
Qed.

(** What [crossCorrelation] computes, in the quantities of the
    specification *)
Lemma crossCorrelation_eq X Y mask :
  sameSize X Y = true →
  Mat_empty mask = true ∨ sameSize X mask = true →
  ucharMat mask →
  crossCorrelation X Y mask =
  Ok (fdiv (covarianceSum X Y mask)
           (deviationSum X mask * deviationSum Y mask)).
Proof.
  intros HXY Hmask Hu. unfold crossCorrelation. rewrite HXY. simpl.
  assert (rows Y = rows X ∧ cols Y = cols X) as [HrY HcY].
  { unfold sameSize in HXY. apply andb_prop in HXY as [H1 H2].
    apply bool_decide_eq_true in H1, H2. done. }
  assert (Mat_empty mask = true ∨ sameSize Y mask = true) as HmaskY.
  { destruct Hmask as [?|Hs]; [by left|right].
    unfold sameSize in *. by rewrite HrY, HcY. }
  rewrite (mean_eq X mask Hmask), (mean_eq Y mask HmaskY). simpl.
  rewrite (forZ_nested (rows X) (cols X)
    (λ row col '(E, deviationX, deviationY),
       if (0 <? atu (if Mat_empty mask then Mat_ones (rows X) (cols X) else mask)
                    row col)%Z then
         (E + (atf X row col - maskedMean X mask) *
              (atf Y row col - maskedMean Y mask),
          deviationX + (atf X row col - maskedMean X mask) *
                       (atf X row col - maskedMean X mask),
          deviationY + (atf Y row col - maskedMean Y mask) *
                       (atf Y row col - maskedMean Y mask))
       else (E, deviationX, deviationY))).
  rewrite (correlation_accumulate X Y mask)
    by (intros p Hp; by apply region_active).
  rewrite !Rplus_0_l.
  unfold covarianceSum, deviationSum, activePositions.
  by rewrite HrY, HcY.
Qed.
End Correlation.

(** C2. For grids [X] and [Y] of one size and a mask that is absent or
    of that size, [crossCorrelation] returns [E / (DX · DY)], where over
    the active samples [E = Σ (x-μX)(y-μY)], [DX = sqrt (Σ (x-μX)²)] and
    [DY = sqrt (Σ (y-μY)²)] with the masked means [μX] and [μY]; the sums
    under the square roots are not divided by the number of samples. *)
Theorem crossCorrelation_spec (X Y : Mat R) (mask : Mat Z) :
  sameSize X Y = true →
  Mat_empty mask = true ∨ sameSize X mask = true →
  ucharMat mask →
  crossCorrelation X Y mask =
  Ok (fdiv (covarianceSum X Y mask)
           (deviationSum X mask * deviationSum Y mask)%R).
Proof. apply crossCorrelation_eq. Qed.

Lemma crossCorrelation_spec_witness :
  crossCorrelation exampleRow exampleRow exampleMask =
  Ok (fdiv (covarianceSum exampleRow exampleRow exampleMask)
           (deviationSum exampleRow exampleMask *
            deviationSum exampleRow exampleMask)%R).
Proof.
  apply (crossCorrelation_spec exampleRow exampleRow exampleMask).
  - reflexivity.
  - right. reflexivity.
  - repeat constructor; lia.
Defined.

Section CorrelationSymmetry.
Local Open Scope R_scope.
Implicit Types (X Y : Mat R) (mask : Mat Z).

Lemma sameSize_refl {A} (m : Mat A) : sameSize m m = true.
Proof. unfold sameSize. by rewrite !bool_decide_eq_true_2. Qed.

Lemma lookupZ_fmap {A B} (f : A → B) (l : list A) (i : Z) :
  lookupZ (f <$> l) i = f <$> lookupZ l i.
Proof. unfold lookupZ. case_bool_decide; [apply list_lookup_fmap|done]. Qed.











Lemma fdiv_zero (a : R) : fdiv a 0 = NonFinite.
Proof. unfold fdiv. by destruct (Req_dec_T 0 0). Qed.
End CorrelationSymmetry.


(** ** Numeric degeneracy *)

Section Degeneracy.
Local Open Scope R_scope.

Lemma deviation_product_zero (X Y : Mat R) (mask : Mat Z) :
  deviationSum X mask = 0 ∨ deviationSum Y mask = 0 →
  deviationSum X mask * deviationSum Y mask = 0.
Proof. intros [-> | ->]; lra. Qed.

Lemma deviationSum_constantRow : deviationSum constantRow noMask = 0.
Proof.
  unfold deviationSum. rewrite <-sqrt_0. f_equal.
  cbv -[Rplus Rmult Rdiv IZR Rinv Rminus Ropp]. lra.
Qed.
End Degeneracy.

(** C8, as the code has it.  With zero deviation [crossCorrelation]
    divides by zero and hands the non-finite quotient back as its
    ordinary result; [normalizeOne] on a one-channel grid with
    [max == min] returns what the library normalisation gives for the
    bounds [min / scale] and [max / scale], which are themselves
    non-finite when the grid is zero everywhere.  Neither reports an
    error. *)
Theorem degeneracy_not_reported
    (normalize : Mat R → fval → fval → Mat R)
    (normalizeOneChannels : list (Mat R) → list (Mat R))
    (X Y : Mat R) (mask : Mat Z) (m : Mat R) :
  sameSize X Y = true →
  Mat_empty mask = true ∨ sameSize X mask = true →
  ucharMat mask →
  (deviationSum X mask = 0%R ∨ deviationSum Y mask = 0%R →
   crossCorrelation X Y mask = Ok NonFinite) ∧
  ((minMaxLoc m).1 = (minMaxLoc m).2 →
   normalizeOne normalize normalizeOneChannels (Mat1 m) =
   Ok (Mat1 (normalize m (fdiv (minMaxLoc m).1 (Rabs (minMaxLoc m).1))
                         (fdiv (minMaxLoc m).1 (Rabs (minMaxLoc m).1))))) ∧
  ((minMaxLoc m).1 = 0%R → (minMaxLoc m).2 = 0%R →
   normalizeOne normalize normalizeOneChannels (Mat1 m) =
   Ok (Mat1 (normalize m NonFinite NonFinite))).
Proof.
  intros HXY Hmask Hu. split; [|split].
  - intros Hdev. rewrite crossCorrelation_eq by done.
    by rewrite deviation_product_zero, fdiv_zero.
  - unfold normalizeOne. destruct (minMaxLoc m) as [mn mx]. simpl.
    intros <-. by rewrite Rmax_left by lra.
  - unfold normalizeOne. destruct (minMaxLoc m) as [mn mx]. simpl.
    intros -> ->. by rewrite Rmax_left, Rabs_R0, fdiv_zero by lra.
Qed.

Lemma degeneracy_not_reported_witness :
  crossCorrelation constantRow constantRow noMask = Ok NonFinite ∧
  normalizeOne (λ m _ _, m) (λ l, l) (Mat1 zeroRow) = Ok (Mat1 zeroRow).
Proof.
  destruct (degeneracy_not_reported (λ m _ _, m) (λ l, l)
              constantRow constantRow noMask zeroRow) as (Hc & _ & Hn).
  - reflexivity.
  - left. reflexivity.
  - constructor.
  - split.
    + apply Hc. left. apply deviationSum_constantRow.
    + apply Hn; simpl.
      * unfold Rmin. destruct (Rle_dec 0 0); reflexivity.
      * unfold Rmax. destruct (Rle_dec 0 0); reflexivity.
Defined.

(** C8, as stated, fails: on a constant grid the deviation is zero and
    [crossCorrelation] returns an ordinary (non-finite) result, not an
    error. *)
Lemma degeneracy_counterexample :
  deviationSum constantRow noMask = 0%R ∧
  crossCorrelation constantRow constantRow noMask = Ok NonFinite ∧
  ¬ isErr (crossCorrelation constantRow constantRow noMask).
Proof.
  assert (crossCorrelation constantRow constantRow noMask = Ok NonFinite) as Heq.
  { rewrite crossCorrelation_eq; [|reflexivity|left; reflexivity|constructor].
    by rewrite deviationSum_constantRow, Rmult_0_l, fdiv_zero. }
  split; [apply deviationSum_constantRow|]. split; [exact Heq|].
  rewrite Heq. simpl. tauto.
Qed.

(** ** Quadrant swap *)

Section SwapQuadrants.
Context {A : Type} (d : A).
Implicit Types (m image : Mat A).

Lemma Mat_roi_eq m (r : Rect) :
  0 ≤ rx r → 0 ≤ rwidth r → rx r + rwidth r ≤ cols m →
  0 ≤ ry r → 0 ≤ rheight r → ry r + rheight r ≤ rows m →
  Mat_roi d m r = Ok (tabulate (rheight r) (rwidth r)
                        (λ i j, Mat_at d m (ry r + i) (rx r + j))).
Proof. intros. unfold Mat_roi. by rewrite bool_decide_eq_true_2 by tauto. Qed.

Lemma Mat_blit_at m (x y : Z) (sub : Mat A) (i j : Z) :
  0 ≤ i < rows m → 0 ≤ j < cols m →
  Mat_at d (Mat_blit d m x y sub) i j =
  if bool_decide (y ≤ i < y + rows sub ∧ x ≤ j < x + cols sub)
  then Mat_at d sub (i - y) (j - x)
  else Mat_at d m i j.
Proof. intros. unfold Mat_blit. by rewrite tabulate_at. Qed.

Lemma swapQuadrants_at image :
  wfMat image →
  ∃ out, swapQuadrants d image = Ok out ∧ wfMat out ∧
         rows out = rows image ∧ cols out = cols image ∧
         ∀ i j, 0 ≤ i < rows image → 0 ≤ j < cols image →
           Mat_at d out i j =
           if (i <? 2 * (rows image ÷ 2)) && (j <? 2 * (cols image ÷ 2))
           then Mat_at d image (swapSource (rows image ÷ 2) i)
                               (swapSource (cols image ÷ 2) j)
           else Mat_at d image i j.
Proof.
  intros (Hr & Hc & Hwf). unfold swapQuadrants.
  assert (0 ≤ cols image ÷ 2 ∧ 2 * (cols image ÷ 2) ≤ cols image) as Hcx
    by (Z.to_euclidean_division_equations; lia).
  assert (0 ≤ rows image ÷ 2 ∧ 2 * (rows image ÷ 2) ≤ rows image) as Hcy
    by (Z.to_euclidean_division_equations; lia).
  set (cx := cols image ÷ 2) in *. set (cy := rows image ÷ 2) in *.
  cbv zeta. cbn [rx ry rwidth rheight].
  rewrite !(Mat_roi_eq image) by (cbn [rx ry rwidth rheight]; lia).
  cbn [mbind result_bind rx ry rwidth rheight].
  rewrite !(Mat_roi_eq (Mat_blit _ _ _ _ _))
    by (cbn [rx ry rwidth rheight rows cols Mat_blit tabulate]; lia).
  cbn [mbind result_bind rx ry rwidth rheight].
  eexists. split; [reflexivity|].
  split; [by apply tabulate_wf|]. split; [done|]. split; [done|].
  intros i j Hi Hj. unfold swapSource.
  repeat (rewrite Mat_blit_at
            by (cbn [rows cols Mat_blit tabulate]; lia);
          cbn [rows cols tabulate]).
  destruct (Z.ltb_spec i cy), (Z.ltb_spec i (2 * cy)),
           (Z.ltb_spec j cx), (Z.ltb_spec j (2 * cx)); try lia;
    cbn [andb];
    repeat (case_bool_decide; try lia);
    repeat (rewrite ?tabulate_at by lia;
            rewrite ?Mat_blit_at by (cbn [rows cols Mat_blit tabulate]; lia);
            cbn [rows cols tabulate];
            repeat (case_bool_decide; try lia));
    f_equal; lia.
Qed.
End SwapQuadrants.

(** C9. Swapping the quadrants twice gives the grid back. *)
Theorem swapQuadrants_involution {A} (d : A) (image : Mat A) :
  wfMat image →
  swapQuadrants d image ≫= swapQuadrants d = Ok image.
Proof.
  intros Hwf.
  destruct (swapQuadrants_at d image Hwf) as (m1 & -> & Hwf1 & Hr1 & Hc1 & Hat1).
  cbn [mbind result_bind].
  destruct (swapQuadrants_at d m1 Hwf1) as (m2 & -> & Hwf2 & Hr2 & Hc2 & Hat2).
  f_equal. apply (Mat_ext d); [done|done|lia|lia|].
  intros i j Hi Hj. rewrite Hat2 by lia. rewrite Hr1, Hc1.
  assert (0 ≤ cols image ÷ 2 ∧ 2 * (cols image ÷ 2) ≤ cols image) as Hcx
    by (destruct Hwf as (? & ? & _); Z.to_euclidean_division_equations; lia).
  assert (0 ≤ rows image ÷ 2 ∧ 2 * (rows image ÷ 2) ≤ rows image) as Hcy
    by (destruct Hwf as (? & ? & _); Z.to_euclidean_division_equations; lia).
  unfold swapSource.
  set (cx := cols image ÷ 2) in *. set (cy := rows image ÷ 2) in *.
  destruct (Z.ltb_spec i cy), (Z.ltb_spec i (2 * cy)),
           (Z.ltb_spec j cx), (Z.ltb_spec j (2 * cx)); try lia;
    cbn [andb]; rewrite Hat1 by lia; fold cx cy; unfold swapSource;
    repeat match goal with
           | |- context [?a <? ?b] => destruct (Z.ltb_spec a b); try lia
           end;
    cbn [andb]; f_equal; lia.
Qed.

(** A 3×3 grid, for which only the top-left 2×2 block moves. *)
Lemma swapQuadrants_involution_witness :
  swapQuadrants 0 (mkMat 3 3 [[1; 2; 3]; [4; 5; 6]; [7; 8; 9]])
    ≫= swapQuadrants 0 =
  Ok (mkMat 3 3 [[1; 2; 3]; [4; 5; 6]; [7; 8; 9]]).
Proof.
  apply (swapQuadrants_involution 0 (mkMat 3 3 [[1; 2; 3]; [4; 5; 6]; [7; 8; 9]])).
  repeat split; simpl; try lia. repeat constructor.
Defined.

(** ** Stores into a matrix and [fillPixel] *)

Section Stores.
Context {A : Type} (d : A).
Implicit Types (m : Mat A).

Lemma Mat_set_rows m (r c : Z) (v : A) : rows (Mat_set m r c v) = rows m.
Proof. unfold Mat_set. by case_bool_decide. Qed.

Lemma Mat_set_cols m (r c : Z) (v : A) : cols (Mat_set m r c v) = cols m.
Proof. unfold Mat_set. by case_bool_decide. Qed.

Lemma Mat_set_wf m (r c : Z) (v : A) : wfMat m → wfMat (Mat_set m r c v).
Proof.
  intros (Hr & Hc & Hlen & Hall). unfold Mat_set.
  case_bool_decide; [|done]. repeat split; simpl; try done.
  - by rewrite length_alter.
  - apply Forall_alter; [done|]. intros x _ Hx. by rewrite length_insert.
Qed.

Lemma lookupZ_alter {B} (f : B → B) (l : list B) (r i : Z) :
  0 ≤ r →
  lookupZ (alter f (Z.to_nat r) l) i =
  if bool_decide (i = r) then f <$> lookupZ l i else lookupZ l i.
Proof.
  intros Hr. unfold lookupZ. case_bool_decide as Hi.
  - rewrite list_lookup_alter.
    destruct (decide (Z.to_nat r = Z.to_nat i)) as [Heq|Hne].
    + rewrite bool_decide_eq_true_2 by lia. by rewrite Heq.
    + by rewrite bool_decide_eq_false_2 by lia.
  - by rewrite bool_decide_eq_false_2 by lia.
Qed.

Lemma lookupZ_insert {B} (l : list B) (c j : Z) (v : B) :
  0 ≤ c →
  lookupZ (<[Z.to_nat c := v]> l) j =
  if bool_decide (j = c ∧ c < Z.of_nat (length l)) then Some v
  else lookupZ l j.
Proof.
  intros Hc. unfold lookupZ. case_bool_decide as Hj.
  - rewrite list_lookup_insert.
    destruct (decide _) as [[Heq Hlt]|Hn].
    + by rewrite bool_decide_eq_true_2 by lia.
    + by rewrite bool_decide_eq_false_2 by lia.
  - by rewrite bool_decide_eq_false_2 by lia.
Qed.

Lemma lookupZ_wf m (i : Z) (row : list A) :
  wfMat m → lookupZ (data m) i = Some row →
  0 ≤ i < rows m ∧ Z.of_nat (length row) = cols m.
Proof.
  intros (Hr & Hc & Hlen & Hall) [Hi Hrow]%lookupZ_Some.
  pose proof (Forall_lookup_1 _ _ _ _ Hall Hrow) as Hlrow. simpl in Hlrow.
  apply lookup_lt_Some in Hrow. lia.
Qed.

Lemma lookupZ_wf_None m (i : Z) :
  wfMat m → lookupZ (data m) i = None → ¬ (0 ≤ i < rows m).
Proof.
  intros (Hr & Hc & Hlen & Hall). unfold lookupZ.
  case_bool_decide; [|lia]. intros Hnone%lookup_ge_None. lia.
Qed.

Lemma Mat_set_at m (r c : Z) (v : A) (i j : Z) :
  wfMat m →
  Mat_at d (Mat_set m r c v) i j =
  if bool_decide (i = r ∧ j = c ∧ 0 ≤ r < rows m ∧ 0 ≤ c < cols m)
  then v else Mat_at d m i j.
Proof.
  intros Hwf. unfold Mat_set, Mat_at.
  case_bool_decide as Hrc; [|by rewrite bool_decide_eq_false_2 by lia].
  simpl. rewrite lookupZ_alter by lia.
  case_bool_decide as Hi; [subst i|by rewrite bool_decide_eq_false_2 by lia].
  destruct (lookupZ (data m) r) as [row|] eqn:Hrow; simpl.
  - apply (lookupZ_wf m) in Hrow as [Hr Hlen]; [|done].
    rewrite lookupZ_insert by lia.
    case_bool_decide as Hj.
    + by rewrite bool_decide_eq_true_2 by lia.
    + by rewrite bool_decide_eq_false_2 by lia.
  - apply (lookupZ_wf_None m) in Hrow; [|done].
    by rewrite bool_decide_eq_false_2 by lia.
Qed.
End Stores.

Section ForInvariant.
Context {S : Type}.

(** A loop invariant that may mention the loop counter *)
Lemma forZ_invariant (I : Z → S → Prop) (lo n : Z) (body : Z → S → S) (st : S) :
  0 ≤ n → I lo st →
  (∀ i s, lo ≤ i < lo + n → I i s → I (i + 1) (body i s)) →
  I (lo + n) (forZ lo n body st).
Proof.
  intros Hn. rewrite <-(Z2Nat.id n) by done.
  generalize (Z.to_nat n) as k. clear Hn n. intros k.
  induction k as [|k IH]; intros Hst Hbody.
  - rewrite Z.add_0_r. by rewrite forZ_nil.
  - rewrite Nat2Z.inj_succ, <-Z.add_1_r.
    rewrite forZ_app, forZ_one by lia.
    rewrite Z.add_assoc. apply Hbody; [lia|].
    apply IH; [done|]. intros i s Hi. apply Hbody. lia.
Qed.
End ForInvariant.

Section FillPixel.
Implicit Types (image : Mat Z) (start : Point).

(** One row of [fillPixel] *)
Lemma fillRow_spec image (row lo n color : Z) :
  wfMat image →
  let image' := forZ lo n (λ col image, Mat_set image row col color) image in
  wfMat image' ∧ rows image' = rows image ∧ cols image' = cols image ∧
  ∀ i j, atu image' i j =
         if bool_decide (i = row ∧ lo ≤ j < lo + n ∧
                         0 ≤ i < rows image ∧ 0 ≤ j < cols image)
         then color else atu image i j.
Proof.
  intros Hwf. cbv zeta.
  destruct (decide (0 ≤ n)) as [Hn|Hn]; cycle 1.
  { rewrite forZ_nil by lia. split_and!; try done. intros i j.
    by rewrite bool_decide_eq_false_2 by lia. }
  pose proof (forZ_invariant
    (λ hi image', wfMat image' ∧ rows image' = rows image ∧
                  cols image' = cols image ∧
                  ∀ i j, atu image' i j =
                         if bool_decide (i = row ∧ lo ≤ j < hi ∧
                                         0 ≤ i < rows image ∧ 0 ≤ j < cols image)
                         then color else atu image i j)
    lo n (λ col image, Mat_set image row col color) image Hn) as Hinv.
  apply Hinv; clear Hinv.
  - split_and!; try done. intros i j.
    by rewrite bool_decide_eq_false_2 by lia.
  - intros col im Hcol (Hwf' & Hr' & Hc' & Hat').
    split; [by apply Mat_set_wf|]. rewrite Mat_set_rows, Mat_set_cols.
    split; [done|]. split; [done|]. intros i j.
    unfold atu in *. rewrite (Mat_set_at 0) by done. rewrite Hat', Hr', Hc'.
    repeat case_bool_decide; try done; lia.
Qed.

(** [fillPixel] overwrites the samples of the rectangle spanned by
    [start] and [end_], both included, and nothing else. *)
Lemma fillPixel_spec image start (end_ : Point) (color : Z) :
  wfMat image →
  let image' := fillPixel image start end_ color in
  wfMat image' ∧ rows image' = rows image ∧ cols image' = cols image ∧
  ∀ i j, atu image' i j =
         if bool_decide (py start ≤ i ≤ py end_ ∧ px start ≤ j ≤ px end_ ∧
                         0 ≤ i < rows image ∧ 0 ≤ j < cols image)
         then color else atu image i j.
Proof.
  intros Hwf. cbv zeta. unfold fillPixel.
  set (n := py end_ - py start + 1).
  destruct (decide (0 ≤ n)) as [Hn|Hn]; cycle 1.
  { rewrite forZ_nil by lia. split_and!; try done. intros i j.
    by rewrite bool_decide_eq_false_2 by lia. }
  pose proof (forZ_invariant
    (λ hi image', wfMat image' ∧ rows image' = rows image ∧
                  cols image' = cols image ∧
                  ∀ i j, atu image' i j =
                         if bool_decide (py start ≤ i < hi ∧
                                         px start ≤ j ≤ px end_ ∧
                                         0 ≤ i < rows image ∧ 0 ≤ j < cols image)
                         then color else atu image i j)
    (py start) n
    (λ row, forZ (px start) (px end_ - px start + 1)
              (λ col image, Mat_set image row col color))
    image Hn) as Hinv.
  destruct Hinv as (Hwf' & Hr' & Hc' & Hat').
  - split_and!; try done. intros i j.
    by rewrite bool_decide_eq_false_2 by lia.
  - intros row im Hrow (Hwf' & Hr' & Hc' & Hat').
    destruct (fillRow_spec im row (px start) (px end_ - px start + 1) color Hwf')
      as (Hwf2 & Hr2 & Hc2 & Hat2).
    split; [done|]. split; [lia|]. split; [lia|]. intros i j.
    rewrite Hat2, Hat', Hr', Hc'.
    repeat case_bool_decide; try done; lia.
  - split; [done|]. split; [done|]. split; [done|]. intros i j.
    rewrite Hat'. unfold n.
    repeat case_bool_decide; try done; lia.
Qed.
End FillPixel.

(** ** The horizontal scan of [edgeTaper] *)

Section HorizontalStep.
Variable src : Mat Z.
Implicit Types (st : Scan) (p q : Point).

Lemma Point_eqb_eq p q : Point_eqb p q = true ↔ p = q.
Proof.
  unfold Point_eqb. destruct p as [x1 y1], q as [x2 y2]. simpl.
  rewrite andb_true_iff, !Z.eqb_eq. split; [intros [-> ->]; done|].
  intros [= -> ->]. done.
Qed.

Lemma Point_eqb_neq p q : Point_eqb p q = false ↔ p ≠ q.
Proof.
  rewrite <-Point_eqb_eq. destruct (Point_eqb p q); split; done.
Qed.

Lemma horizontalStep_closing (row col : Z) st :
  wfMat (canvas st) → stepKind src row col st = Closing →
  let st' := horizontalStep src row col st in
  start st ≠ noPoint ∧
  (0 < atu src row col ∨ col = cols src - 1) ∧
  start st' = noPoint ∧ left st' = firstColour src row col st ∧
  wfMat (canvas st') ∧
  rows (canvas st') = rows (canvas st) ∧ cols (canvas st') = cols (canvas st) ∧
  ∀ i j, atu (canvas st') i j =
         if bool_decide (splitY row st ≤ i ≤ row ∧ splitX col st ≤ j ≤ col ∧
                         0 ≤ i < rows (canvas st) ∧ 0 ≤ j < cols (canvas st))
         then secondColour src row col st
         else if bool_decide (py (start st) ≤ i ≤ splitY row st ∧
                              px (start st) ≤ j ≤ splitX col st ∧
                              0 ≤ i < rows (canvas st) ∧ 0 ≤ j < cols (canvas st))
         then firstColour src row col st
         else atu (canvas st) i j.
Proof.
  intros Hwf Hkind. cbv zeta. unfold stepKind, horizontalStep, threshold in *.
  destruct (Point_eqb (start st) noPoint) eqn:Hstart; simpl in *;
    [by destruct (_ <=? _)|].
  destruct ((0 <? atu src row col) || (col =? cols src - 1)) eqn:Hclose;
    [|done].
  apply Point_eqb_neq in Hstart. apply orb_true_iff in Hclose.
  split; [done|]. split; [rewrite Z.ltb_lt, Z.eqb_eq in Hclose; tauto|].
  cbn [start left canvas]. split; [done|]. split; [done|].
  fold (splitX col st) (splitY row st) (firstColour src row col st).
  fold (secondColour src row col st).
  destruct (fillPixel_spec (canvas st) (start st)
              (mkPoint (splitX col st) (splitY row st))
              (firstColour src row col st) Hwf) as (Hwf1 & Hr1 & Hc1 & Hat1).
  destruct (fillPixel_spec _ (mkPoint (splitX col st) (splitY row st))
              (mkPoint col row) (secondColour src row col st) Hwf1)
    as (Hwf2 & Hr2 & Hc2 & Hat2).
  split; [done|]. split; [lia|]. split; [lia|]. intros i j.
  rewrite Hat2, Hat1, Hr1, Hc1. cbn [px py]. done.
Qed.

Lemma horizontalStep_inside (row col : Z) st :
  stepKind src row col st = Inside →
  start st ≠ noPoint ∧ atu src row col ≤ 0 ∧ col ≠ cols src - 1 ∧
  horizontalStep src row col st = st.
Proof.
  unfold stepKind, horizontalStep, threshold.
  destruct (Point_eqb (start st) noPoint) eqn:Hstart; simpl;
    [by destruct (_ <=? _)|].
  destruct ((0 <? atu src row col) || (col =? cols src - 1)) eqn:Hclose;
    [done|].
  intros _. apply Point_eqb_neq in Hstart.
  apply orb_false_iff in Hclose as [H1%Z.ltb_ge H2%Z.eqb_neq]. done.
Qed.

Lemma horizontalStep_opening (row col : Z) st :
  stepKind src row col st = Opening →
  start st = noPoint ∧ atu src row col ≤ 0 ∧
  horizontalStep src row col st =
  mkScan (if 0 <? col then atu src row (col - 1) else 0)
         (mkPoint col row) (canvas st).
Proof.
  unfold stepKind, horizontalStep, threshold.
  destruct (Point_eqb (start st) noPoint) eqn:Hstart; simpl;
    [|by destruct (_ || _)].
  destruct (atu src row col <=? 0) eqn:Hv; [|done].
  intros _. apply Point_eqb_eq in Hstart. apply Z.leb_le in Hv. done.
Qed.

Lemma horizontalStep_outside (row col : Z) st :
  stepKind src row col st = Outside →
  start st = noPoint ∧ 0 < atu src row col ∧
  horizontalStep src row col st = st.
Proof.
  unfold stepKind, horizontalStep, threshold.
  destruct (Point_eqb (start st) noPoint) eqn:Hstart; simpl;
    [|by destruct (_ || _)].
  destruct (atu src row col <=? 0) eqn:Hv; [done|].
  intros _. apply Point_eqb_eq in Hstart. apply Z.leb_gt in Hv. done.
Qed.
End HorizontalStep.

Section HorizontalInvariants.
Variable src : Mat Z.
Hypothesis src_wf : wfMat src.
Implicit Types (st : Scan).

Lemma horizontalStep_canvasOK (row col : Z) st :
  canvasOK src st → canvasOK src (horizontalStep src row col st).
Proof.
  intros (Hwf & Hr & Hc). unfold canvasOK.
  destruct (stepKind src row col st) eqn:Hkind.
  - destruct (horizontalStep_closing src row col st Hwf Hkind)
      as (_ & _ & _ & _ & Hwf' & Hr' & Hc' & _).
    split; [done|]. split; congruence.
  - apply horizontalStep_inside in Hkind as (_ & _ & _ & ->). done.
  - apply horizontalStep_opening in Hkind as (_ & _ & ->). done.
  - apply horizontalStep_outside in Hkind as (_ & _ & ->). done.
Qed.

Lemma horizontalStep_reach (row col : Z) st :
  canvasOK src st → 0 ≤ row → 0 ≤ col < cols src →
  reach src row st → reach src row (horizontalStep src row col st).
Proof.
  intros (Hwf & Hr & Hc) Hrow Hcol Hreach. unfold reach.
  destruct (stepKind src row col st) eqn:Hkind.
  - destruct (horizontalStep_closing src row col st Hwf Hkind)
      as (_ & _ & -> & _). by left.
  - apply horizontalStep_inside in Hkind as (_ & _ & _ & ->). done.
  - apply horizontalStep_opening in Hkind as (_ & _ & ->). right. simpl. lia.
  - apply horizontalStep_outside in Hkind as (_ & _ & ->). done.
Qed.

(** A step at [(row, col)] writes no sample below row [row] and none
    right of column [col]. *)
Lemma horizontalStep_ahead (row col i j : Z) st :
  canvasOK src st → row < i ∨ col < j →
  atu (canvas (horizontalStep src row col st)) i j = atu (canvas st) i j.
Proof.
  intros (Hwf & Hr & Hc) Hij.
  destruct (stepKind src row col st) eqn:Hkind.
  - destruct (horizontalStep_closing src row col st Hwf Hkind)
      as (_ & _ & _ & _ & _ & _ & _ & ->).
    unfold splitX, splitY.
    rewrite !bool_decide_eq_false_2; [done|..];
      Z.to_euclidean_division_equations; lia.
  - apply horizontalStep_inside in Hkind as (_ & _ & _ & ->). done.
  - apply horizontalStep_opening in Hkind as (_ & _ & ->). done.
  - apply horizontalStep_outside in Hkind as (_ & _ & ->). done.
Qed.

(** A step past [(r, k)] leaves a settled sample alone. *)
Lemma horizontalStep_settled (r k row col : Z) st :
  canvasOK src st → settled r k row st →
  r < row ∨ (row = r ∧ k < col) →
  settled r k row (horizontalStep src row col st) ∧
  atu (canvas (horizontalStep src row col st)) r k = atu (canvas st) r k.
Proof.
  intros (Hwf & Hr & Hc) Hset Hpos.
  destruct (stepKind src row col st) eqn:Hkind.
  - destruct (horizontalStep_closing src row col st Hwf Hkind)
      as (Hopen & _ & Hstart & _ & _ & _ & _ & ->).
    split; [by left|].
    destruct Hset as [?|Hset]; [done|].
    unfold splitX, splitY.
    rewrite !bool_decide_eq_false_2; [done|..];
      Z.to_euclidean_division_equations; lia.
  - apply horizontalStep_inside in Hkind as (_ & _ & _ & ->). done.
  - apply horizontalStep_opening in Hkind as (_ & _ & ->).
    split; [|done]. right. simpl. lia.
  - apply horizontalStep_outside in Hkind as (_ & _ & ->). done.
Qed.

Lemma settled_mono (r k row row' : Z) st :
  row ≤ row' → settled r k row st → settled r k row' st.
Proof. unfold settled. intros ? [?|[? ?]]; [by left|right]. split; [lia|done]. Qed.

(** A step on a nonzero sample leaves the scan outside any region. *)
Lemma horizontalStep_nonzero (row col : Z) st :
  canvasOK src st → 0 < atu src row col →
  start (horizontalStep src row col st) = noPoint.
Proof.
  intros (Hwf & Hr & Hc) Hv.
  destruct (stepKind src row col st) eqn:Hkind.
  - by destruct (horizontalStep_closing src row col st Hwf Hkind)
      as (_ & _ & -> & _).
  - apply horizontalStep_inside in Hkind as (_ & ? & _). lia.
  - apply horizontalStep_opening in Hkind as (_ & ? & _). lia.
  - by apply horizontalStep_outside in Hkind as (? & _ & ->).
Qed.
End HorizontalInvariants.

Section HorizontalScan.
Variable src : Mat Z.
Hypothesis src_wf : wfMat src.
Implicit Types (st : Scan).

Lemma scanCols_OK (row lo n : Z) st :
  0 ≤ row → 0 ≤ lo → lo + n ≤ cols src →
  canvasOK src st ∧ reach src row st →
  canvasOK src (forZ lo n (λ col, horizontalStep src row col) st) ∧
  reach src row (forZ lo n (λ col, horizontalStep src row col) st).
Proof.
  intros Hrow Hlo Hn Hst. apply forZ_ind; [done|].
  intros col st' Hcol [HOK Hreach].
  split; [by apply horizontalStep_canvasOK|].
  apply horizontalStep_reach; [done|lia|lia|done].
Qed.

Lemma reach_mono (row row' : Z) st :
  row ≤ row' → reach src row st → reach src row' st.
Proof. unfold reach. intros ? [?|[? ?]]; [by left|right; lia]. Qed.

Lemma scanRows_OK (lo n : Z) st :
  0 ≤ lo → 0 ≤ n →
  canvasOK src st ∧ reach src lo st →
  canvasOK src (forZ lo n (scanRow src) st) ∧
  reach src (lo + n) (forZ lo n (scanRow src) st).
Proof.
  intros Hlo Hn Hst.
  apply (forZ_invariant (λ row st, canvasOK src st ∧ reach src row st));
    [done..|].
  intros row st' Hrow Hst'.
  destruct (scanCols_OK row 0 (cols src) st') as [HOK Hreach];
    [lia..|done|].
  split; [done|]. by apply (reach_mono row); [lia|].
Qed.

Lemma scanBefore_OK (row col : Z) :
  0 ≤ row → 0 ≤ col ≤ cols src →
  canvasOK src (scanBefore src row col) ∧
  reach src row (scanBefore src row col).
Proof.
  intros Hrow Hcol. unfold scanBefore.
  apply scanCols_OK; [lia..|].
  apply (scanRows_OK 0 row); [lia..|].
  split; [by split|by left].
Qed.

(** The scan, cut at the step on [(row, col)] *)
Lemma horizontalScan_split (row col : Z) :
  0 ≤ row < rows src → 0 ≤ col < cols src →
  horizontalScan src =
  forZ (row + 1) (rows src - (row + 1)) (scanRow src)
    (forZ (col + 1) (cols src - (col + 1)) (λ col, horizontalStep src row col)
       (horizontalStep src row col (scanBefore src row col))).
Proof.
  intros Hrow Hcol. unfold horizontalScan.
  change (forZ 0 (rows src) _ _)
    with (forZ 0 (rows src) (scanRow src) (mkScan 0 noPoint src)).
  replace (rows src) with (row + (1 + (rows src - (row + 1)))) at 1 by lia.
  rewrite forZ_app by lia. rewrite forZ_app by lia. rewrite forZ_one.
  rewrite Z.add_0_l. f_equal. unfold scanRow at 1.
  replace (cols src) with (col + (1 + (cols src - (col + 1)))) at 1 by lia.
  rewrite forZ_app by lia. rewrite forZ_app by lia. rewrite forZ_one.
  rewrite Z.add_0_l. done.
Qed.

(** Before the step on [(row, col)] the samples from there on in row
    [row] are those of the source. *)
Lemma scanBefore_ahead (row col j : Z) :
  0 ≤ row → 0 ≤ col ≤ cols src → col ≤ j →
  atu (canvas (scanBefore src row col)) row j = atu src row j.
Proof.
  intros Hrow Hcol Hj. unfold scanBefore.
  assert (canvasOK src (forZ 0 row (scanRow src) (mkScan 0 noPoint src)) ∧
          atu (canvas (forZ 0 row (scanRow src) (mkScan 0 noPoint src))) row j =
          atu src row j) as [HOK Heq].
  { apply (forZ_ind (λ st, canvasOK src st ∧ atu (canvas st) row j = atu src row j));
      [by split; [split|]|].
    intros i st Hi [HOK Heq]. unfold scanRow.
    apply (forZ_ind (λ st, canvasOK src st ∧ atu (canvas st) row j = atu src row j));
      [done|].
    intros c st' Hc [HOK' Heq']. split; [by apply horizontalStep_canvasOK|].
    rewrite horizontalStep_ahead by (done || lia). done. }
  apply (forZ_ind (λ st, canvasOK src st ∧ atu (canvas st) row j = atu src row j));
    [done|].
  intros c st' Hc [HOK' Heq']. split; [by apply horizontalStep_canvasOK|].
  rewrite horizontalStep_ahead by (done || lia). done.
Qed.

Lemma scanCols_settled (r k row lo n : Z) st :
  r < row ∨ (row = r ∧ k < lo) →
  canvasOK src st → settled r k row st →
  let st' := forZ lo n (λ col, horizontalStep src row col) st in
  canvasOK src st' ∧ settled r k row st' ∧
  atu (canvas st') r k = atu (canvas st) r k.
Proof.
  intros Hpos HOK Hset. cbv zeta.
  apply (forZ_ind (λ st', canvasOK src st' ∧ settled r k row st' ∧
                          atu (canvas st') r k = atu (canvas st) r k));
    [done|].
  intros col st' Hcol (HOK' & Hset' & Heq').
  split; [by apply horizontalStep_canvasOK|].
  destruct (horizontalStep_settled src r k row col st') as [Hs Ha];
    [done|done|lia|].
  split; [done|]. congruence.
Qed.

Lemma scanRows_settled (r k lo n : Z) st :
  r < lo → 0 ≤ n →
  canvasOK src st → settled r k lo st →
  let st' := forZ lo n (scanRow src) st in
  canvasOK src st' ∧ settled r k (lo + n) st' ∧
  atu (canvas st') r k = atu (canvas st) r k.
Proof.
  intros Hlo Hn HOK Hset. cbv zeta.
  apply (forZ_invariant
           (λ row st', canvasOK src st' ∧ settled r k row st' ∧
                       atu (canvas st') r k = atu (canvas st) r k));
    [done..|].
  intros row st' Hrow (HOK' & Hset' & Heq').
  destruct (scanCols_settled r k row 0 (cols src) st')
    as (HOK2 & Hset2 & Heq2); [lia|done..|].
  split; [done|]. split; [by apply (settled_mono r k row); [lia|]|].
  unfold scanRow. congruence.
Qed.

(** Once the step on [(row, col)] has left the sample [(row, k)]
    settled, its value is final. *)
Lemma taperedHorizontal_final (row col k : Z) :
  0 ≤ row < rows src → 0 ≤ col < cols src → k ≤ col →
  settled row k row (horizontalStep src row col (scanBefore src row col)) →
  atu (taperedHorizontal src) row k =
  atu (canvas (horizontalStep src row col (scanBefore src row col))) row k.
Proof.
  intros Hrow Hcol Hk Hset. unfold taperedHorizontal.
  rewrite (horizontalScan_split row col) by done.
  destruct (scanBefore_OK row col) as [HOK _]; [lia..|].
  apply (horizontalStep_canvasOK src row col) in HOK.
  destruct (scanCols_settled row k row (col + 1) (cols src - (col + 1)) _
              ltac:(lia) HOK Hset) as (HOK1 & Hset1 & Heq1).
  destruct (scanRows_settled row k (row + 1) (rows src - (row + 1)) _
              ltac:(lia) ltac:(lia) HOK1
              (settled_mono row k row (row + 1) _ ltac:(lia) Hset1))
    as (_ & _ & Heq2).
  congruence.
Qed.
End HorizontalScan.

(** ** Runs of zero samples in a row *)

Section Runs.
Variable src : Mat Z.
Hypothesis src_wf : wfMat src.
Implicit Types (st : Scan).

Lemma horizontalStep_open_eq (row col : Z) st :
  start st = noPoint → atu src row col ≤ 0 →
  horizontalStep src row col st =
  mkScan (if 0 <? col then atu src row (col - 1) else 0)
         (mkPoint col row) (canvas st).
Proof.
  intros Hstart Hv. apply horizontalStep_opening.
  unfold stepKind, threshold. rewrite Hstart. simpl.
  by rewrite (proj2 (Z.leb_le _ _)).
Qed.

Lemma horizontalStep_inside_eq (row col : Z) st :
  start st ≠ noPoint → atu src row col ≤ 0 → col ≠ cols src - 1 →
  horizontalStep src row col st = st.
Proof.
  intros Hstart%Point_eqb_neq Hv Hcol. apply horizontalStep_inside.
  unfold stepKind, threshold. rewrite Hstart. simpl.
  by rewrite (proj2 (Z.ltb_ge _ _)), (proj2 (Z.eqb_neq _ _)).
Qed.

(** The scan enters a run at column [s] and is still in it after
    column [e]. *)
Lemma run_open (r s e : Z) st :
  start st = noPoint → 0 ≤ s ≤ e → e < cols src - 1 →
  (∀ k, s ≤ k ≤ e → atu src r k = 0) →
  forZ s (e - s + 1) (λ col, horizontalStep src r col) st =
  mkScan (if 0 <? s then atu src r (s - 1) else 0) (mkPoint s r) (canvas st).
Proof.
  intros Hstart Hse He Hzero.
  rewrite forZ_cons by lia.
  rewrite horizontalStep_open_eq by (done || rewrite Hzero; lia).
  apply (forZ_ind (λ st', st' = mkScan _ (mkPoint s r) (canvas st))); [done|].
  intros col st' Hcol ->.
  apply horizontalStep_inside_eq; [|rewrite Hzero; lia|lia].
  simpl. intros [= ? ?]. lia.
Qed.

(** What the scan has written in the row when it closes a run that
    began at column [s], at column [t]. *)
Lemma run_closed (r s t : Z) :
  0 ≤ r < rows src → 0 ≤ s < t → t < cols src →
  start (scanBefore src r s) = noPoint →
  (∀ k, s ≤ k < t → atu src r k = 0) →
  0 < atu src r t ∨ t = cols src - 1 →
  let first := if s =? 0 then atu src r t else atu src r (s - 1) in
  let second := if t =? cols src - 1 then first else atu src r t in
  ∀ k, s ≤ k ≤ t →
    atu (taperedHorizontal src) r k =
    if bool_decide (t - (t - s) ÷ 2 ≤ k) then second else first.
Proof.
  intros Hr Hst Ht Hstart Hzero Hend. cbv zeta. intros k Hk.
  destruct (scanBefore_OK src src_wf r s) as [[Hwf [Hrows Hcols]] _]; [lia..|].
  assert (scanBefore src r t =
          mkScan (if 0 <? s then atu src r (s - 1) else 0) (mkPoint s r)
                 (canvas (scanBefore src r s))) as Hbefore.
  { unfold scanBefore at 1. replace t with (s + (t - 1 - s + 1)) at 1 by lia.
    rewrite forZ_app by lia. rewrite Z.add_0_l.
    apply run_open; [done|lia|lia|]. intros; apply Hzero; lia. }
  pose proof (horizontalStep_closing src r t (scanBefore src r t)) as Hclose.
  rewrite Hbefore in Hclose. cbv zeta in Hclose.
  destruct Hclose as (_ & _ & Hnone & _ & _ & _ & _ & Hat); [exact Hwf| |].
  { unfold stepKind, threshold. simpl.
    assert (Point_eqb (mkPoint s r) noPoint = false) as ->
      by (apply Point_eqb_neq; intros [= ? ?]; lia).
    simpl. destruct Hend as [Hv%Z.ltb_lt| ->]; [by rewrite Hv|].
    by rewrite Z.eqb_refl, orb_true_r. }
  rewrite (taperedHorizontal_final src src_wf r t k);
    [|done|lia|lia|left; by rewrite Hbefore].
  rewrite Hbefore, Hat.
  unfold splitX, splitY, secondColour, firstColour. cbn [start px py left canvas].
  rewrite Hrows, Hcols.
  assert ((0 <? s) = negb (s =? 0)) as ->
    by (destruct (Z.ltb_spec 0 s), (Z.eqb_spec s 0); simpl; lia).
  destruct (s =? 0) eqn:Hs0; simpl;
    repeat case_bool_decide; try done;
    Z.to_euclidean_division_equations; lia.
Qed.

(** After a nonzero sample the scan is outside any region. *)
Lemma scanBefore_after_nonzero (r s : Z) :
  0 ≤ r → 1 ≤ s ≤ cols src → 0 < atu src r (s - 1) →
  start (scanBefore src r s) = noPoint.
Proof.
  intros Hr Hs Hv. unfold scanBefore.
  replace s with ((s - 1) + 1) at 1 by lia.
  rewrite forZ_app, forZ_one by lia. rewrite Z.add_0_l.
  apply horizontalStep_nonzero; [|done].
  apply (scanBefore_OK src src_wf r (s - 1)); lia.
Qed.

Lemma scanRow_not_pending (row : Z) st :
  canvasOK src st → 2 ≤ cols src → pendingRow src row = false →
  start (scanRow src row st) = noPoint.
Proof.
  intros HOK Hcols Hpend. unfold scanRow.
  replace (cols src) with ((cols src - 2) + (1 + 1)) at 1 by lia.
  rewrite forZ_app by lia. rewrite forZ_app by lia. rewrite !forZ_one.
  rewrite Z.add_0_l.
  replace (cols src - 2 + 1) with (cols src - 1) by lia.
  set (st0 := forZ 0 (cols src - 2) _ st).
  assert (canvasOK src st0) as HOK0.
  { unfold st0. apply forZ_ind; [done|].
    intros; by apply horizontalStep_canvasOK. }
  assert (canvasOK src (horizontalStep src row (cols src - 2) st0)) as HOK1
    by by apply horizontalStep_canvasOK.
  unfold pendingRow in Hpend. apply andb_false_iff in Hpend.
  destruct (Z.lt_ge_cases 0 (atu src row (cols src - 1))) as [Hlast|Hlast];
    [by apply horizontalStep_nonzero|].
  destruct Hpend as [Hp%Z.leb_gt|Hp%Z.ltb_ge]; [lia|].
  set (st1 := horizontalStep src row (cols src - 2) st0) in *.
  assert (start st1 ≠ noPoint) as Hopen.
  { unfold st1. destruct (stepKind src row (cols src - 2) st0) eqn:Hkind.
    - destruct HOK0 as [Hwf0 _].
      destruct (horizontalStep_closing src row _ st0 Hwf0 Hkind)
        as (_ & Hc & _). lia.
    - by apply horizontalStep_inside in Hkind as (? & _ & _ & ->).
    - apply horizontalStep_opening in Hkind as (_ & _ & ->).
      simpl. intros [= ? ?]. lia.
    - apply horizontalStep_outside in Hkind as (_ & ? & _). lia. }
  destruct HOK1 as [Hwf1 _].
  edestruct (horizontalStep_closing src row (cols src - 1) st1)
    as (_ & _ & Hnone & _); [exact Hwf1| |exact Hnone].
  unfold stepKind. apply Point_eqb_neq in Hopen. rewrite Hopen. simpl.
  by rewrite Z.eqb_refl, orb_true_r.
Qed.

(** No region is open when the scan enters row [r]. *)
Lemma scanBefore_row_start (r : Z) :
  0 ≤ r → 2 ≤ cols src →
  r = 0 ∨ pendingRow src (r - 1) = false →
  start (scanBefore src r 0) = noPoint.
Proof.
  intros Hr Hcols Hprev. unfold scanBefore. rewrite (forZ_nil 0 0) by lia.
  destruct (decide (r = 0)) as [->|Hr0]; [done|].
  destruct Hprev as [?|Hpend]; [done|].
  replace r with ((r - 1) + 1) at 1 by lia.
  rewrite forZ_app, forZ_one by lia. rewrite Z.add_0_l.
  apply scanRow_not_pending; [|done|done].
  apply (scanRows_OK src 0 (r - 1)); [lia..|].
  split; [by split|by left].
Qed.
End Runs.

Section Terminators.
Variable src : Mat Z.
Hypothesis src_wf : wfMat src.

(** A nonzero sample left of the last column keeps its value. *)
Lemma nonzero_kept (r t : Z) :
  0 ≤ r < rows src → 0 ≤ t < cols src - 1 → 0 < atu src r t →
  atu (taperedHorizontal src) r t = atu src r t.
Proof.
  intros Hr Ht Hv.
  destruct (scanBefore_OK src src_wf r t) as [HOK Hreach]; [lia..|].
  rewrite (taperedHorizontal_final src src_wf r t t);
    [|done|lia|lia|left; by apply horizontalStep_nonzero].
  pose proof (scanBefore_ahead src src_wf r t t) as Hbefore.
  destruct HOK as (Hwf & Hrows & Hcols).
  destruct (stepKind src r t (scanBefore src r t)) eqn:Hkind.
  - destruct (horizontalStep_closing src r t _ Hwf Hkind)
      as (Hopen & _ & _ & _ & _ & _ & _ & ->).
    destruct Hreach as [?|Hreach]; [done|].
    unfold splitX, splitY, secondColour.
    rewrite (proj2 (Z.eqb_neq t (cols src - 1))) by lia.
    repeat case_bool_decide; try done; [|apply Hbefore; lia].
    exfalso. rewrite Hrows, Hcols in *.
    Z.to_euclidean_division_equations; lia.
  - apply horizontalStep_inside in Hkind as (_ & ? & _). lia.
  - apply horizontalStep_opening in Hkind as (_ & ? & _). lia.
  - apply horizontalStep_outside in Hkind as (_ & _ & ->). apply Hbefore; lia.
Qed.

(** A region that is closed on a nonzero sample of the last column
    gives that sample the colour of its first half. *)
Lemma last_column_overwritten (r : Z) :
  0 ≤ r < rows src → 1 ≤ cols src →
  start (scanBefore src r (cols src - 1)) ≠ noPoint →
  atu (taperedHorizontal src) r (cols src - 1) =
  firstColour src r (cols src - 1) (scanBefore src r (cols src - 1)).
Proof.
  intros Hr Hc Hopen.
  destruct (scanBefore_OK src src_wf r (cols src - 1))
    as [(Hwf & Hrows & Hcols) Hreach]; [lia..|].
  destruct Hreach as [?|Hreach]; [done|].
  edestruct (horizontalStep_closing src r (cols src - 1))
    as (_ & _ & Hnone & _ & _ & _ & _ & Hat); [exact Hwf| |].
  { unfold stepKind. apply Point_eqb_neq in Hopen. rewrite Hopen. simpl.
    by rewrite Z.eqb_refl, orb_true_r. }
  rewrite (taperedHorizontal_final src src_wf r (cols src - 1) (cols src - 1));
    [|done|lia|lia|by left].
  rewrite Hat. unfold secondColour. rewrite Z.eqb_refl.
  rewrite bool_decide_eq_true_2; [done|].
  unfold splitX, splitY. rewrite Hrows, Hcols.
  Z.to_euclidean_division_equations; lia.
Qed.
End Terminators.

(** ** The claims about the horizontal pass *)

Lemma uchar_nonzero (src : Mat Z) (i j : Z) :
  ucharMat src → atu src i j ≠ 0 → 0 < atu src i j.
Proof. intros Hu Hv. pose proof (atu_uchar src i j Hu). lia. Qed.

Lemma rowImage_wf (l : list Z) : wfMat (rowImage l).
Proof.
  unfold wfMat, rowImage. cbn [rows cols data]. split_and!; [lia|lia|done|].
  constructor; [|done]. by rewrite Nat2Z.id.
Qed.

(** C4, as the code has it.  A zero run over columns [s..e] whose right
    neighbour [e+1] is not in the last column is filled with the left
    neighbour's value on columns [s..m] and with the right neighbour's
    value on columns [m+1..e], where [m = e - (e-s+1)/2]. *)
Theorem horizontal_fill (src : Mat Z) (r s e : Z) :
  wfMat src → ucharMat src → 0 ≤ r < rows src →
  zeroRun src r s e → e + 1 < cols src - 1 →
  let m := e - (e - s + 1) ÷ 2 in
  (∀ k, s ≤ k ≤ m → atu (taperedHorizontal src) r k = atu src r (s - 1)) ∧
  (∀ k, m < k ≤ e → atu (taperedHorizontal src) r k = atu src r (e + 1)).
Proof.
  intros Hwf Hu Hr (Hse & He & Hleft & Hzero & Hright) Hlast. cbv zeta.
  apply (uchar_nonzero _ _ _ Hu) in Hleft, Hright.
  pose proof (run_closed src Hwf r s (e + 1) Hr ltac:(lia) ltac:(lia)
                (scanBefore_after_nonzero src Hwf r s ltac:(lia) ltac:(lia) Hleft)
                ltac:(intros; apply Hzero; lia) (or_introl Hright)) as Hfill.
  cbv zeta in Hfill.
  rewrite (proj2 (Z.eqb_neq s 0)) in Hfill by lia.
  rewrite (proj2 (Z.eqb_neq (e + 1) (cols src - 1))) in Hfill by lia.
  split; intros k Hk;
    rewrite Hfill by (Z.to_euclidean_division_equations; lia).
  - rewrite bool_decide_eq_false_2; [done|].
    Z.to_euclidean_division_equations; lia.
  - rewrite bool_decide_eq_true_2; [done|].
    Z.to_euclidean_division_equations; lia.
Qed.

Lemma horizontal_fill_witness :
  atu (taperedHorizontal (rowImage [5; 0; 0; 0; 9; 7])) 0 1 = 5 ∧
  atu (taperedHorizontal (rowImage [5; 0; 0; 0; 9; 7])) 0 2 = 5 ∧
  atu (taperedHorizontal (rowImage [5; 0; 0; 0; 9; 7])) 0 3 = 9.
Proof.
  destruct (horizontal_fill (rowImage [5; 0; 0; 0; 9; 7]) 0 1 3)
    as [Hfirst Hsecond].
  - apply rowImage_wf.
  - repeat constructor; lia.
  - simpl. lia.
  - split; [lia|]. split; [simpl; lia|]. split; [by vm_compute|].
    split; [|by vm_compute].
    intros k Hk. assert (k = 1 ∨ k = 2 ∨ k = 3) as [->|[->| ->]] by lia;
      reflexivity.
  - simpl. lia.
  - split; [apply (Hfirst 1)|split; [apply (Hfirst 2)|apply (Hsecond 3)]];
      Z.to_euclidean_division_equations; lia.
Defined.

(** C4, as stated, fails: in the row [5 0 0 0 9] the terminating sample
    is in the last column and column 3 receives 5, not 9; in the row
    [5 0 0 9 7] the run has even length and column 2 receives 9, not 5. *)
Lemma horizontal_fill_counterexample :
  (zeroRun (rowImage [5; 0; 0; 0; 9]) 0 1 3 ∧
   ¬ midpointFill (rowImage [5; 0; 0; 0; 9]) 0 1 3) ∧
  (zeroRun (rowImage [5; 0; 0; 9; 7]) 0 1 2 ∧
   ¬ midpointFill (rowImage [5; 0; 0; 9; 7]) 0 1 2).
Proof.
  split; split.
  - split; [lia|]. split; [simpl; lia|]. split; [by vm_compute|].
    split; [|by vm_compute].
    intros k Hk. assert (k = 1 ∨ k = 2 ∨ k = 3) as [->|[->| ->]] by lia;
      reflexivity.
  - unfold midpointFill. cbv zeta. intros [_ H].
    specialize (H 3 ltac:(Z.to_euclidean_division_equations; lia)).
    vm_compute in H. discriminate.
  - split; [lia|]. split; [simpl; lia|]. split; [by vm_compute|].
    split; [|by vm_compute].
    intros k Hk. assert (k = 1 ∨ k = 2) as [->| ->] by lia; reflexivity.
  - unfold midpointFill. cbv zeta. intros [H _].
    specialize (H 2 ltac:(Z.to_euclidean_division_equations; lia)).
    vm_compute in H. discriminate.
Qed.

(** C5, as the code has it.  In an image of at least two columns, a
    zero run that starts at column 0, no region being open from the row
    above, is filled over its whole length with the value of the sample
    at which the scan closes it: the nonzero sample [t] right of the run,
    or the last sample of the row when the run reaches it. *)
Theorem left_border_fill (src : Mat Z) (r t : Z) :
  wfMat src → ucharMat src → 0 ≤ r < rows src →
  r = 0 ∨ pendingRow src (r - 1) = false →
  1 ≤ t < cols src →
  (∀ k, 0 ≤ k < t → atu src r k = 0) →
  atu src r t ≠ 0 ∨ t = cols src - 1 →
  ∀ k, 0 ≤ k ≤ t → atu (taperedHorizontal src) r k = atu src r t.
Proof.
  intros Hwf Hu Hr Hprev Ht Hzero Hend k Hk.
  assert (0 < atu src r t ∨ t = cols src - 1) as Hend'
    by (destruct Hend as [?%(uchar_nonzero _ _ _ Hu)|?]; [by left|by right]).
  pose proof (run_closed src Hwf r 0 t Hr ltac:(lia) ltac:(lia)
                (scanBefore_row_start src Hwf r ltac:(lia) ltac:(lia) Hprev)
                Hzero Hend' k Hk) as Hfill.
  cbv zeta in Hfill. rewrite Hfill. simpl.
  by destruct (t =? cols src - 1), (bool_decide _).
Qed.

Lemma left_border_fill_witness :
  atu (taperedHorizontal (rowImage [0; 0; 9; 4])) 0 0 = 9 ∧
  atu (taperedHorizontal (rowImage [0; 0; 9; 4])) 0 1 = 9 ∧
  atu (taperedHorizontal (rowImage [0; 0; 9; 4])) 0 2 = 9.
Proof.
  assert (∀ k, 0 ≤ k ≤ 2 →
            atu (taperedHorizontal (rowImage [0; 0; 9; 4])) 0 k = 9) as Hfill.
  { apply (left_border_fill (rowImage [0; 0; 9; 4]) 0 2).
    - apply rowImage_wf.
    - repeat constructor; lia.
    - simpl. lia.
    - by left.
    - simpl. lia.
    - intros k Hk. assert (k = 0 ∨ k = 1) as [->| ->] by lia; reflexivity.
    - left. by vm_compute. }
  split; [|split]; apply Hfill; lia.
Defined.

(** C5, as stated, fails: in the row [0 0 9 4] the run over columns
    [0..1] touches the left border and its first half receives 9. *)
Lemma left_border_counterexample :
  (atu (rowImage [0; 0; 9; 4]) 0 0 = 0 ∧ atu (rowImage [0; 0; 9; 4]) 0 1 = 0 ∧
   atu (rowImage [0; 0; 9; 4]) 0 2 ≠ 0) ∧
  ¬ leftBorderZeroFill (rowImage [0; 0; 9; 4]) 0 1.
Proof.
  split; [by vm_compute|].
  unfold leftBorderZeroFill. cbv zeta. intros H.
  specialize (H 0 ltac:(Z.to_euclidean_division_equations; lia)).
  vm_compute in H. discriminate.
Qed.

(** C10.  When a region is closed on a nonzero sample of the last
    column, that sample receives the colour of the region's first half;
    for a run over columns [s..cols-2] with a nonzero left neighbour this
    is the left neighbour's value, so the sample's own value is lost.  A
    nonzero sample in any earlier column keeps its value. *)
Theorem last_column_terminator (src : Mat Z) (r : Z) :
  wfMat src → ucharMat src → 0 ≤ r < rows src →
  (1 ≤ cols src →
   start (scanBefore src r (cols src - 1)) ≠ noPoint →
   atu src r (cols src - 1) ≠ 0 →
   atu (taperedHorizontal src) r (cols src - 1) =
   firstColour src r (cols src - 1) (scanBefore src r (cols src - 1))) ∧
  (∀ s, 1 ≤ s < cols src - 1 →
     atu src r (s - 1) ≠ 0 →
     (∀ k, s ≤ k < cols src - 1 → atu src r k = 0) →
     atu src r (cols src - 1) ≠ 0 →
     atu (taperedHorizontal src) r (cols src - 1) = atu src r (s - 1)) ∧
  (∀ t, 0 ≤ t < cols src - 1 →
     atu src r t ≠ 0 →
     atu (taperedHorizontal src) r t = atu src r t).
Proof.
  intros Hwf Hu Hr. split; [|split].
  - intros Hc Hopen _. by apply last_column_overwritten.
  - intros s Hs Hleft%(uchar_nonzero _ _ _ Hu) Hzero
      Hlast%(uchar_nonzero _ _ _ Hu).
    pose proof (run_closed src Hwf r s (cols src - 1) Hr ltac:(lia) ltac:(lia)
                  (scanBefore_after_nonzero src Hwf r s ltac:(lia) ltac:(lia) Hleft)
                  Hzero (or_introl Hlast) (cols src - 1) ltac:(lia)) as Hfill.
    cbv zeta in Hfill. rewrite Hfill.
    rewrite (proj2 (Z.eqb_neq s 0)) by lia. rewrite Z.eqb_refl.
    by destruct (bool_decide _).
  - intros t Ht Hv%(uchar_nonzero _ _ _ Hu). by apply nonzero_kept.
Qed.

Lemma last_column_terminator_witness :
  atu (taperedHorizontal (rowImage [5; 0; 0; 0; 9])) 0 4 = 5 ∧
  atu (taperedHorizontal (rowImage [5; 0; 0; 0; 9])) 0 0 = 5.
Proof.
  destruct (last_column_terminator (rowImage [5; 0; 0; 0; 9]) 0)
    as (_ & Hlast & Hkept).
  - apply rowImage_wf.
  - repeat constructor; lia.
  - simpl. lia.
  - split.
    + apply (Hlast 1); [simpl; lia|by vm_compute| |by vm_compute].
      intros k Hk. simpl in Hk.
      assert (k = 1 ∨ k = 2 ∨ k = 3) as [->|[->| ->]] by lia; reflexivity.
    + apply (Hkept 0); [simpl; lia|by vm_compute].
Defined.

(** ** The whole of [edgeTaper] *)

Section EdgeTaper.
Implicit Types (src mask image dst : Mat Z) (st : Scan).

Lemma fillPixel_size image (start end_ : Point) (color : Z) :
  rows (fillPixel image start end_ color) = rows image ∧
  cols (fillPixel image start end_ color) = cols image.
Proof.
  unfold fillPixel.
  apply (forZ_ind (λ im, rows im = rows image ∧ cols im = cols image)); [done|].
  intros row im _ Him.
  apply (forZ_ind (λ im, rows im = rows image ∧ cols im = cols image)); [done|].
  intros col im' _ [Hr Hc]. by rewrite Mat_set_rows, Mat_set_cols.
Qed.

Lemma closed_size src st (e1 e2 : Point) (c1 c2 : Z) :
  sizeOf src st →
  rows (fillPixel (fillPixel (canvas st) (start st) e1 c1) e1 e2 c2) = rows src ∧
  cols (fillPixel (fillPixel (canvas st) (start st) e1 c1) e1 e2 c2) = cols src.
Proof.
  intros [Hr Hc].
  destruct (fillPixel_size (fillPixel (canvas st) (start st) e1 c1) e1 e2 c2)
    as [-> ->].
  destruct (fillPixel_size (canvas st) (start st) e1 c1) as [-> ->]. done.
Qed.

Lemma horizontalStep_size src (row col : Z) st :
  sizeOf src st → sizeOf src (horizontalStep src row col st).
Proof.
  intros Hst. unfold horizontalStep.
  repeat match goal with |- context [if ?b then _ else _] => destruct b end;
    try done; by apply closed_size.
Qed.

Lemma verticalStep_size src (col row : Z) st :
  sizeOf src st → sizeOf src (verticalStep src col row st).
Proof.
  intros Hst. unfold verticalStep.
  repeat match goal with |- context [if ?b then _ else _] => destruct b end;
    try done; by apply closed_size.
Qed.

Lemma maskStep_size src mask (row col : Z) st :
  sizeOf src st → sizeOf src (maskStep src mask row col st).
Proof.
  intros Hst. unfold maskStep.
  repeat match goal with |- context [if ?b then _ else _] => destruct b end;
    try done; by apply closed_size.
Qed.

Lemma taperedHorizontal_size src :
  rows (taperedHorizontal src) = rows src ∧
  cols (taperedHorizontal src) = cols src.
Proof.
  unfold taperedHorizontal, horizontalScan.
  apply (forZ_ind (sizeOf src)); [done|]. intros row st _ Hst.
  apply (forZ_ind (sizeOf src)); [done|]. intros col st' _ Hst'.
  by apply horizontalStep_size.
Qed.

Lemma taperedVertical_size src :
  rows (taperedVertical src) = rows src ∧
  cols (taperedVertical src) = cols src.
Proof.
  unfold taperedVertical.
  apply (forZ_ind (sizeOf src)); [done|]. intros col st _ Hst.
  apply (forZ_ind (sizeOf src)); [done|]. intros row st' _ Hst'.
  by apply verticalStep_size.
Qed.

Lemma maskScan_size src mask dst :
  rows dst = rows src → cols dst = cols src →
  rows (maskScan src mask dst) = rows src ∧
  cols (maskScan src mask dst) = cols src.
Proof.
  intros Hr Hc. unfold maskScan.
  apply (forZ_ind (sizeOf src)); [done|]. intros row st _ Hst.
  apply (forZ_ind (sizeOf src)); [done|]. intros col st' _ Hst'.
  by apply maskStep_size.
Qed.

Lemma sameSize_true {A B} (m : Mat A) (n : Mat B) :
  sameSize m n = true ↔ rows m = rows n ∧ cols m = cols n.
Proof.
  unfold sameSize. rewrite andb_true_iff, !bool_decide_eq_true. done.
Qed.

Lemma addWeighted_Ok (saturate_uchar : R → Z) src1 (alpha : R) src2
    (beta gamma : R) :
  rows src1 = rows src2 → cols src1 = cols src2 →
  ∃ dst, addWeighted saturate_uchar src1 alpha src2 beta gamma = Ok dst ∧
         rows dst = rows src1 ∧ cols dst = cols src1.
Proof.
  intros Hr Hc. unfold addWeighted.
  rewrite (proj2 (sameSize_true src1 src2)) by done.
  eexists. split; [reflexivity|done].
Qed.
End EdgeTaper.

(** C6.  Whatever the guide image, the rounding and the blur, every
    image that [edgeTaper] returns has the size of the source and, under
    every nonzero mask byte, the sample of the source; and [edgeTaper]
    does return an image when the mask and the guide have the size of the
    source. *)
Theorem edgeTaper_restores_mask
    (saturate_uchar : R → Z) (gaussianSample : Mat Z → Z → Z → Z → Z)
    (src mask image : Mat Z) :
  (sameSize src mask = true → sameSize src image = true →
   ∃ dst, edgeTaper saturate_uchar gaussianSample src mask image = Ok dst) ∧
  (∀ dst, edgeTaper saturate_uchar gaussianSample src mask image = Ok dst →
     rows dst = rows src ∧ cols dst = cols src ∧
     ∀ i j, 0 ≤ i < rows src → 0 ≤ j < cols src →
            atu mask i j ≠ 0 → atu dst i j = atu src i j).
Proof.
  split.
  - intros Hmask Himage. unfold edgeTaper. cbv zeta.
    destruct (taperedHorizontal_size src) as [HrH HcH].
    destruct (taperedVertical_size src) as [HrV HcV].
    apply sameSize_true in Himage as [HrI HcI].
    destruct (addWeighted_Ok saturate_uchar (taperedHorizontal src) 0.5
                (taperedVertical src) 0.5 0.0) as (dst1 & -> & Hr1 & Hc1);
      [congruence..|].
    cbn [mbind result_bind].
    destruct (maskScan_size src mask dst1) as [HrM HcM]; [congruence..|].
    destruct (addWeighted_Ok saturate_uchar (maskScan src mask dst1) 0.7
                (GaussianBlur gaussianSample image 19) 0.3 0.0)
      as (dst2 & -> & Hr2 & Hc2); [simpl; congruence..|].
    cbn [mbind result_bind]. unfold copyTo_mask. rewrite Hmask. by eexists.
  - intros dst. unfold edgeTaper. cbv zeta.
    destruct (addWeighted saturate_uchar (taperedHorizontal src) 0.5
                (taperedVertical src) 0.5 0.0) as [dst1|]; [|done].
    cbn [mbind result_bind].
    destruct (addWeighted saturate_uchar (maskScan src mask dst1) 0.7
                (GaussianBlur gaussianSample image 19) 0.3 0.0) as [dst2|]; [|done].
    cbn [mbind result_bind]. unfold copyTo_mask.
    destruct (sameSize src mask); [|done]. intros [= <-].
    split; [done|]. split; [done|].
    intros i j Hi Hj Hm. unfold atu at 1. rewrite tabulate_at by done.
    by rewrite (proj2 (Z.eqb_neq _ _) Hm).
Qed.

Lemma edgeTaper_restores_mask_witness :
  ∃ dst, edgeTaper roundToUchar noBlur (rowImage [5; 0; 0; 0; 9])
           (rowImage [255; 255; 0; 0; 0]) (rowImage [5; 0; 0; 0; 9]) = Ok dst ∧
         atu dst 0 0 = 5 ∧ atu dst 0 1 = 0.
Proof.
  destruct (edgeTaper_restores_mask roundToUchar noBlur
              (rowImage [5; 0; 0; 0; 9]) (rowImage [255; 255; 0; 0; 0])
              (rowImage [5; 0; 0; 0; 9])) as [Hret Hkeep].
  destruct Hret as [dst Hdst]; [reflexivity..|].
  exists dst. split; [exact Hdst|].
  destruct (Hkeep dst Hdst) as (_ & _ & Hat).
  split; apply Hat; simpl; try lia; by vm_compute.
Defined.

(** ** The scan on concrete images *)

(** The terminating sample in the last column is overwritten. *)
Example taperedHorizontal_last_column :
  data (taperedHorizontal (rowImage [5; 0; 0; 0; 9])) = [[5; 5; 5; 5; 5]].
Proof. reflexivity. Qed.

(** A run of even length gives the larger half to the right neighbour. *)
Example taperedHorizontal_even_run :
  data (taperedHorizontal (rowImage [5; 0; 0; 9; 7])) = [[5; 5; 9; 9; 7]].
Proof. reflexivity. Qed.

(** A row without a nonzero sample stays zero. *)
Example taperedHorizontal_zero_row :
  data (taperedHorizontal (rowImage [0; 0; 0; 0])) = [[0; 0; 0; 0]].
Proof. reflexivity. Qed.

(** [start] is not reset between rows: a run that begins in the last
    column stays open, and the zero samples at the start of the next row
    are left as they are. *)
Example taperedHorizontal_open_across_rows :
  pendingRow (mkMat 2 3 [[7; 7; 0]; [0; 0; 9]]) 0 = true ∧
  data (taperedHorizontal (mkMat 2 3 [[7; 7; 0]; [0; 0; 9]])) =
    [[7; 7; 7]; [0; 0; 7]].
Proof. split; reflexivity. Qed.

(** The vertical pass is the horizontal one transposed. *)
Example taperedVertical_column :
  data (taperedVertical (mkMat 6 1 [[5]; [0]; [0]; [0]; [9]; [7]])) =
    [[5]; [5]; [5]; [9]; [9]; [7]].
Proof. reflexivity. Qed.

(** * Further properties of the code *)

(** ** [conv2] computes the linear convolution *)

Section Convolution.
Local Open Scope R_scope.
Implicit Types (src kernel : Mat R).

Lemma Rsum_app (l k : list R) : Rsum (l ++ k) = Rsum l + Rsum k.
Proof. induction l as [|x l IH]; simpl; [lra|]. rewrite IH. lra. Qed.

(** A sum over a grid of indices, row by row *)
Lemma Rsum_bind2 {B C} (F : B → C → R) (l : list B) (k : list C) :
  Rsum (i ← l; j ← k; [F i j]) = Rsum ((λ i, Rsum (F i <$> k)) <$> l).
Proof.
  induction l as [|i l IH]; [done|]. csimpl. rewrite Rsum_app, IH. f_equal.
Qed.

Lemma Rsum_seqZ_cons (g : Z → R) (n : nat) :
  Rsum (g <$> seqZ 0 (Z.of_nat (S n))) =
  g 0%Z + Rsum ((λ i, g (i + 1)%Z) <$> seqZ 0 (Z.of_nat n)).
Proof.
  rewrite (seqZ_cons 0) by lia. csimpl. f_equal.
  replace (Z.pred (Z.of_nat (S n))) with (Z.of_nat n) by lia.
  rewrite <-(fmap_add_seqZ 1 0), <-list_fmap_compose.
  apply Rsum_ext. intros i _. simpl. f_equal. lia.
Qed.

Lemma Rsum_seqZ_snoc (g : Z → R) (n : nat) :
  Rsum (g <$> seqZ 0 (Z.of_nat (S n))) =
  Rsum (g <$> seqZ 0 (Z.of_nat n)) + g (Z.of_nat n).
Proof.
  rewrite (seqZ_S 0 n), fmap_app, Rsum_app. simpl.
  rewrite Rplus_0_r. done.
Qed.

(** A sum over [0 .. n-1] can be taken from the other end. *)
Lemma Rsum_seqZ_reverse (f : Z → R) (n : nat) :
  Rsum ((λ i, f (Z.of_nat n - 1 - i)%Z) <$> seqZ 0 (Z.of_nat n)) =
  Rsum (f <$> seqZ 0 (Z.of_nat n)).
Proof.
  induction n as [|n IH]; [done|].
  rewrite Rsum_seqZ_cons, (Rsum_seqZ_snoc f), <-IH, Rplus_comm.
  f_equal; [apply Rsum_ext; intros i _|]; f_equal; lia.
Qed.

Lemma Rsum_grid_reverse (F G : Z → Z → R) (n m : Z) :
  0 ≤ n → 0 ≤ m →
  (∀ i j, 0 ≤ i < n → 0 ≤ j < m → F i j = G (n - 1 - i) (m - 1 - j))%Z →
  Rsum (i ← seqZ 0 n; j ← seqZ 0 m; [F i j]) =
  Rsum (a ← seqZ 0 n; b ← seqZ 0 m; [G a b]).
Proof.
  intros Hn Hm HFG. rewrite !Rsum_bind2.
  rewrite <-(Z2Nat.id n), <-(Z2Nat.id m) in * by done.
  rewrite <-(Rsum_seqZ_reverse (λ a, Rsum (G a <$> seqZ 0 (Z.of_nat (Z.to_nat m))))).
  apply Rsum_ext. intros i Hi%elem_of_seqZ.
  rewrite <-(Rsum_seqZ_reverse (G _)).
  apply Rsum_ext. intros j Hj%elem_of_seqZ. apply HFG; lia.
Qed.

Lemma atf_outside src (i j : Z) :
  wfMat src → ¬ (0 ≤ i < rows src ∧ 0 ≤ j < cols src)%Z → atf src i j = 0.
Proof.
  intros Hwf Hout. unfold atf, Mat_at.
  destruct (lookupZ (data src) i) as [r|] eqn:Hr; [|done]. simpl.
  apply (lookupZ_wf src) in Hr as [Hi Hlen]; [|done].
  destruct (lookupZ r j) as [v|] eqn:Hv; [|done].
  apply lookupZ_Some in Hv as [Hj Hv]. apply lookup_lt_Some in Hv. lia.
Qed.

Lemma borderInterpolate_inside (p len : Z) :
  (0 ≤ p < len)%Z → borderInterpolate p len = p.
Proof.
  intros Hp. unfold borderInterpolate.
  by rewrite (proj2 (Z.leb_le 0 p)), (proj2 (Z.ltb_lt p len)) by lia.
Qed.

(** Away from the last [kh - 1] rows and [kw - 1] columns, where the
    filter reads reflected samples, the filtered image is the linear
    convolution. *)
Lemma conv2Padded_core src kernel (y x : Z) :
  wfMat src → (1 ≤ rows kernel)%Z → (1 ≤ cols kernel)%Z →
  (0 ≤ y < rows src + (rows kernel - 1))%Z →
  (0 ≤ x < cols src + (cols kernel - 1))%Z →
  atf (conv2Padded src kernel) y x = linearConvolution src kernel y x.
Proof.
  intros Hwf Hkh Hkw Hy Hx. destruct Hwf as (Hr & Hc & Hwf').
  assert (wfMat src) as Hwf by done.
  unfold conv2Padded, filter2D, linearConvolution.
  unfold atf at 1. rewrite tabulate_at by (cbn [rows cols tabulate]; lia).
  cbn [rows cols tabulate flip px py].
  apply Rsum_grid_reverse; [lia..|]. intros i j Hi Hj.
  rewrite !borderInterpolate_inside by lia.
  f_equal.
  - unfold flip, atf. by rewrite tabulate_at by lia.
  - unfold atf at 1. rewrite tabulate_at by lia.
    case_bool_decide as Hin.
    + f_equal; lia.
    + symmetry. apply atf_outside; [done|]. lia.
Qed.
End Convolution.

Section ConvolutionShapes.
Implicit Types (src kernel : Mat R).

(** [conv2] once the border has been added: a crop of the filtered image *)
Lemma conv2_crop src kernel (shape : ConvShape) :
  1 ≤ rows kernel → 1 ≤ cols kernel →
  conv2 src kernel shape =
  match shape with
  | FULL =>
      Mat_roi 0%R (conv2Padded src kernel)
        (mkRect 0 0 (cols (conv2Padded src kernel) - (cols kernel - 1))
                    (rows (conv2Padded src kernel) - (rows kernel - 1)))
  | SAME =>
      Mat_roi 0%R (conv2Padded src kernel)
        (mkRect ((cols (conv2Padded src kernel) - (cols kernel - 1) - cols src + 1) ÷ 2)
                ((rows (conv2Padded src kernel) - (rows kernel - 1) - rows src + 1) ÷ 2)
                (cols src) (rows src))
  | VALID =>
      Mat_roi 0%R (conv2Padded src kernel)
        (mkRect ((cols (conv2Padded src kernel) - (cols kernel - 1) -
                  (cols src - cols kernel + 1)) ÷ 2)
                ((rows (conv2Padded src kernel) - (rows kernel - 1) -
                  (rows src - rows kernel + 1)) ÷ 2)
                (cols src - cols kernel + 1)
                (rows src - rows kernel + 1))
  | OtherShape _ => Err RuntimeError
  end.
Proof.
  intros Hkh Hkw. unfold conv2, copyMakeBorder.
  rewrite bool_decide_eq_true_2 by lia. by destruct shape.
Qed.

Lemma conv2Padded_size src kernel :
  rows (conv2Padded src kernel) = rows src + 2 * (rows kernel - 1) ∧
  cols (conv2Padded src kernel) = cols src + 2 * (cols kernel - 1).
Proof. unfold conv2Padded. simpl. lia. Qed.

(** The samples of a crop *)
Lemma Mat_roi_at (m : Mat R) (r : Rect) (dst : Mat R) (i j : Z) :
  Mat_roi 0%R m r = Ok dst → 0 ≤ i < rheight r → 0 ≤ j < rwidth r →
  atf dst i j = atf m (ry r + i) (rx r + j).
Proof.
  unfold Mat_roi. case_bool_decide; [|done]. intros [= <-] Hi Hj.
  unfold atf at 1. by rewrite tabulate_at.
Qed.
End ConvolutionShapes.

(** X1. Under FULL, [conv2] returns the linear convolution of the source
    with the kernel, the source being continued by zeros: the reflected
    border of [filter2D] does not reach the result. *)
Theorem conv2_full_convolution (src kernel : Mat R) :
  wfMat src → 1 ≤ rows kernel → 1 ≤ cols kernel →
  ∃ dst, conv2 src kernel FULL = Ok dst ∧
    ∀ y x, 0 ≤ y < rows src + rows kernel - 1 →
           0 ≤ x < cols src + cols kernel - 1 →
           atf dst y x = linearConvolution src kernel y x.
Proof.
  intros Hwf Hkh Hkw. pose proof Hwf as (Hr & Hc & _).
  destruct (conv2Padded_size src kernel) as [Hrows Hcols].
  rewrite conv2_crop by done.
  match goal with
  | |- ∃ dst, Mat_roi ?d ?m ?r = Ok dst ∧ _ =>
      destruct (Mat_roi_Ok d m r (rheight r) (rwidth r)) as (dst & Hdst & _);
        [cbn [rx ry rwidth rheight];
         try lia; Z.to_euclidean_division_equations; lia..
        |reflexivity|reflexivity|]
  end.
  exists dst. split; [done|]. intros y x Hy Hx.
  rewrite (Mat_roi_at _ _ _ _ _ Hdst) by (cbn [rwidth rheight]; lia).
  cbn [rx ry]. rewrite !Z.add_0_l. apply conv2Padded_core; (done || lia).
Qed.

Lemma conv2_full_convolution_witness :
  ∃ dst, conv2 exampleRow exampleKernel FULL = Ok dst ∧
    ∀ y x, 0 ≤ y < rows exampleRow + rows exampleKernel - 1 →
           0 ≤ x < cols exampleRow + cols exampleKernel - 1 →
           atf dst y x = linearConvolution exampleRow exampleKernel y x.
Proof.
  apply (conv2_full_convolution exampleRow exampleKernel); try (simpl; lia).
  repeat split; simpl; try lia. repeat constructor.
Defined.

(** X2. Under SAME, the sample at [(y, x)] is the linear convolution at
    [(y + kh/2, x + kw/2)]. *)
Theorem conv2_same_convolution (src kernel : Mat R) :
  wfMat src → 1 ≤ rows kernel → 1 ≤ cols kernel →
  ∃ dst, conv2 src kernel SAME = Ok dst ∧
    ∀ y x, 0 ≤ y < rows src → 0 ≤ x < cols src →
           atf dst y x =
           linearConvolution src kernel (y + rows kernel ÷ 2) (x + cols kernel ÷ 2).
Proof.
  intros Hwf Hkh Hkw. pose proof Hwf as (Hr & Hc & _).
  destruct (conv2Padded_size src kernel) as [Hrows Hcols].
  rewrite conv2_crop by done.
  match goal with
  | |- ∃ dst, Mat_roi ?d ?m ?r = Ok dst ∧ _ =>
      destruct (Mat_roi_Ok d m r (rheight r) (rwidth r)) as (dst & Hdst & _);
        [cbn [rx ry rwidth rheight];
         try lia; Z.to_euclidean_division_equations; lia..
        |reflexivity|reflexivity|]
  end.
  exists dst. split; [done|]. intros y x Hy Hx.
  rewrite (Mat_roi_at _ _ _ _ _ Hdst) by (cbn [rwidth rheight]; lia).
  cbn [rx ry]. rewrite conv2Padded_core;
    [|done|done|done|Z.to_euclidean_division_equations; lia..].
  f_equal; Z.to_euclidean_division_equations; lia.
Qed.

Lemma conv2_same_convolution_witness :
  ∃ dst, conv2 exampleRow exampleKernel SAME = Ok dst ∧
    ∀ y x, 0 ≤ y < rows exampleRow → 0 ≤ x < cols exampleRow →
           atf dst y x =
           linearConvolution exampleRow exampleKernel
             (y + rows exampleKernel ÷ 2) (x + cols exampleKernel ÷ 2).
Proof.
  apply (conv2_same_convolution exampleRow exampleKernel); try (simpl; lia).
  repeat split; simpl; try lia. repeat constructor.
Defined.

(** X3. Under VALID, for a kernel no larger than the source, the sample
    at [(y, x)] is the linear convolution at [(y + kh - 1, x + kw - 1)],
    where every tap of the kernel lies on a sample of the source. *)
Theorem conv2_valid_convolution (src kernel : Mat R) :
  wfMat src → 1 ≤ rows kernel ≤ rows src → 1 ≤ cols kernel ≤ cols src →
  ∃ dst, conv2 src kernel VALID = Ok dst ∧
    ∀ y x, 0 ≤ y < rows src - rows kernel + 1 →
           0 ≤ x < cols src - cols kernel + 1 →
           atf dst y x =
           linearConvolution src kernel (y + rows kernel - 1) (x + cols kernel - 1) ∧
           ∀ a b, 0 ≤ a < rows kernel → 0 ≤ b < cols kernel →
                  0 ≤ y + rows kernel - 1 - a < rows src ∧
                  0 ≤ x + cols kernel - 1 - b < cols src.
Proof.
  intros Hwf Hkh Hkw. pose proof Hwf as (Hr & Hc & _).
  destruct (conv2Padded_size src kernel) as [Hrows Hcols].
  rewrite conv2_crop by lia.
  match goal with
  | |- ∃ dst, Mat_roi ?d ?m ?r = Ok dst ∧ _ =>
      destruct (Mat_roi_Ok d m r (rheight r) (rwidth r)) as (dst & Hdst & _);
        [cbn [rx ry rwidth rheight];
         try lia; Z.to_euclidean_division_equations; lia..
        |reflexivity|reflexivity|]
  end.
  exists dst. split; [done|]. intros y x Hy Hx. split; [|lia].
  rewrite (Mat_roi_at _ _ _ _ _ Hdst) by (cbn [rwidth rheight]; lia).
  cbn [rx ry]. rewrite conv2Padded_core;
    [|done|lia|lia|Z.to_euclidean_division_equations; lia..].
  f_equal; Z.to_euclidean_division_equations; lia.
Qed.

Lemma conv2_valid_convolution_witness :
  ∃ dst, conv2 exampleRow exampleKernel VALID = Ok dst ∧
    ∀ y x, 0 ≤ y < rows exampleRow - rows exampleKernel + 1 →
           0 ≤ x < cols exampleRow - cols exampleKernel + 1 →
           atf dst y x =
           linearConvolution exampleRow exampleKernel
             (y + rows exampleKernel - 1) (x + cols exampleKernel - 1) ∧
           ∀ a b, 0 ≤ a < rows exampleKernel → 0 ≤ b < cols exampleKernel →
                  0 ≤ y + rows exampleKernel - 1 - a < rows exampleRow ∧
                  0 ≤ x + cols exampleKernel - 1 - b < cols exampleRow.
Proof.
  apply (conv2_valid_convolution exampleRow exampleKernel); try (simpl; lia).
  repeat split; simpl; try lia. repeat constructor.
Defined.

(** X4. For a kernel with at least one row and one column, [conv2]
    fails in two cases only: a shape outside the enumeration, and VALID
    with a kernel that exceeds the source by more than one row or
    column (a kernel exactly one larger gives an empty crop). *)
Theorem conv2_failures (src kernel : Mat R) (shape : ConvShape) :
  wfMat src → 1 ≤ rows kernel → 1 ≤ cols kernel →
  (isErr (conv2 src kernel shape) ↔
   (∃ n, shape = OtherShape n) ∨
   (shape = VALID ∧ (rows src + 1 < rows kernel ∨ cols src + 1 < cols kernel))) ∧
  (∀ n, conv2 src kernel (OtherShape n) = Err RuntimeError) ∧
  (rows src + 1 < rows kernel ∨ cols src + 1 < cols kernel →
   conv2 src kernel VALID = Err CvArgumentError).
Proof.
  intros (Hr & Hc & _) Hkh Hkw.
  destruct (conv2Padded_size src kernel) as [Hrows Hcols].
  assert (∀ r, (0 ≤ rx r ∧ 0 ≤ rwidth r ∧
                rx r + rwidth r ≤ cols (conv2Padded src kernel) ∧
                0 ≤ ry r ∧ 0 ≤ rheight r ∧
                ry r + rheight r ≤ rows (conv2Padded src kernel)) →
               ¬ isErr (Mat_roi 0%R (conv2Padded src kernel) r)) as Hok.
  { intros r Hin. unfold Mat_roi. rewrite bool_decide_eq_true_2 by done. simpl. tauto. }
  assert (rows src + 1 < rows kernel ∨ cols src + 1 < cols kernel →
          conv2 src kernel VALID = Err CvArgumentError) as Hvalid.
  { intros Hbig. rewrite conv2_crop by done. unfold Mat_roi.
    rewrite bool_decide_eq_false_2; [done|]. cbn [rx ry rwidth rheight]. lia. }
  split; [|split; [intros n; by rewrite conv2_crop|done]].
  split.
  - destruct shape as [| | |n]; [| | |by left; exists n];
      rewrite conv2_crop by done; intros Herr.
    + exfalso. revert Herr. apply Hok. cbn [rx ry rwidth rheight]. lia.
    + exfalso. revert Herr. apply Hok. cbn [rx ry rwidth rheight].
      Z.to_euclidean_division_equations; lia.
    + right. split; [done|].
      destruct (decide (rows src + 1 < rows kernel ∨ cols src + 1 < cols kernel))
        as [|Hfit]; [done|].
      exfalso. revert Herr. apply Hok. cbn [rx ry rwidth rheight].
      Z.to_euclidean_division_equations; lia.
  - intros [[n ->]|[-> Hbig]].
    + by rewrite conv2_crop.
    + by rewrite Hvalid.
Qed.

Lemma conv2_failures_witness :
  conv2 exampleRow (mkMat 1 6 [[1; 1; 1; 1; 1; 1]%R]) VALID = Err CvArgumentError.
Proof.
  apply (conv2_failures exampleRow (mkMat 1 6 [[1; 1; 1; 1; 1; 1]%R]) VALID);
    try (simpl; lia).
  repeat split; simpl; try lia. repeat constructor.
Defined.


(** ** Further properties of the correlation metric *)

Section CorrelationProperties.
Local Open Scope R_scope.
Implicit Types (X Y : Mat R) (mask : Mat Z).

Lemma sameSize_sym {A B} (m : Mat A) (n : Mat B) :
  sameSize m n = true → sameSize n m = true.
Proof. rewrite !sameSize_true. intros [-> ->]. done. Qed.

Lemma activePositions_sameSize X Y mask :
  sameSize X Y = true → activePositions Y mask = activePositions X mask.
Proof. rewrite sameSize_true. unfold activePositions. by intros [-> ->]. Qed.

Lemma covarianceSum_sym X Y mask :
  sameSize X Y = true → covarianceSum Y X mask = covarianceSum X Y mask.
Proof.
  intros HXY. unfold covarianceSum. rewrite (activePositions_sameSize X Y) by done.
  apply Rsum_ext. intros p _. lra.
Qed.

End CorrelationProperties.

(** X5. The correlation score is symmetric in its two images. *)
Theorem crossCorrelation_symmetric (X Y : Mat R) (mask : Mat Z) :
  sameSize X Y = true →
  Mat_empty mask = true ∨ sameSize X mask = true →
  ucharMat mask →
  crossCorrelation Y X mask = crossCorrelation X Y mask.
Proof.
  intros HXY Hmask Hu.
  assert (Mat_empty mask = true ∨ sameSize Y mask = true) as HmaskY.
  { destruct Hmask as [?|Hs]; [by left|right].
    apply sameSize_true in HXY as [HrY HcY]. apply sameSize_true in Hs.
    apply sameSize_true. split; lia. }
  rewrite (crossCorrelation_eq X Y), (crossCorrelation_eq Y X)
    by (done || by apply sameSize_sym).
  by rewrite covarianceSum_sym, Rmult_comm.
Qed.

Lemma crossCorrelation_symmetric_witness :
  crossCorrelation (Mat_opp exampleRow) exampleRow exampleMask =
  crossCorrelation exampleRow (Mat_opp exampleRow) exampleMask.
Proof.
  apply (crossCorrelation_symmetric exampleRow (Mat_opp exampleRow) exampleMask).
  - reflexivity.
  - right. reflexivity.
  - repeat constructor; lia.
Defined.

Section CorrelationDegenerate.
Local Open Scope R_scope.
Implicit Types (X Y : Mat R) (mask : Mat Z).

Lemma Rsum_const {B} (f : B → R) (c : R) (l : list B) :
  (∀ x, x ∈ l → f x = c) →
  Rsum (f <$> l) = IZR (Z.of_nat (length l)) * c.
Proof.
  induction l as [|x l IH]; intros Hc; [simpl; rewrite Nat2Z.inj_0; lra|].
  csimpl. rewrite Hc by apply list_elem_of_here.
  rewrite IH by (intros y Hy; apply Hc; by apply list_elem_of_further).
  rewrite Nat2Z.inj_succ, succ_IZR. lra.
Qed.

Lemma elem_of_activePositions X mask (p : Z * Z) :
  p ∈ activePositions X mask ↔
  (0 ≤ p.1 < rows X ∧ 0 ≤ p.2 < cols X)%Z ∧ active mask p = true.
Proof.
  unfold activePositions. rewrite list_elem_of_filter, elem_of_positions. tauto.
Qed.

Lemma maskedMean_const X mask (c : R) :
  (∀ p, p ∈ activePositions X mask → atf X p.1 p.2 = c) →
  activePositions X mask ≠ [] → maskedMean X mask = c.
Proof.
  intros Hc Hne. unfold maskedMean. cbv zeta.
  rewrite bool_decide_eq_false_2 by done.
  rewrite (Rsum_const _ c) by done. field.
  apply not_0_IZR. destruct (activePositions X mask); [done|simpl; lia].
Qed.

Lemma squareSum_const X mask (c : R) :
  (∀ p, p ∈ activePositions X mask → atf X p.1 p.2 = c) →
  squareSum X mask = 0.
Proof.
  intros Hc. unfold squareSum.
  destruct (decide (activePositions X mask = [])) as [->|Hne]; [done|].
  rewrite (Rsum_const _ 0); [lra|]. intros p Hp.
  rewrite (maskedMean_const X mask c), Hc by done. lra.
Qed.

Lemma deviationSum_const X mask (c : R) :
  (∀ p, p ∈ activePositions X mask → atf X p.1 p.2 = c) →
  deviationSum X mask = 0.
Proof.
  intros Hc. unfold deviationSum. fold (squareSum X mask).
  rewrite (squareSum_const X mask c) by done. apply sqrt_0.
Qed.
End CorrelationDegenerate.

(** X7. When the active samples of one image all have the same value
    (in particular when the mask selects no sample, or one), the score is
    not a finite number, whichever of the two images it is. *)
Theorem crossCorrelation_constant (X Y : Mat R) (mask : Mat Z) (c : R) :
  sameSize X Y = true →
  Mat_empty mask = true ∨ sameSize X mask = true →
  ucharMat mask →
  (∀ i j, 0 ≤ i < rows X → 0 ≤ j < cols X → active mask (i, j) = true →
          atf X i j = c) →
  crossCorrelation X Y mask = Ok NonFinite ∧
  crossCorrelation Y X mask = Ok NonFinite.
Proof.
  intros HXY Hmask Hu Hc.
  assert (deviationSum X mask = 0%R) as Hdev.
  { apply (deviationSum_const X mask c). intros [i j] [[Hi Hj] Hact]%elem_of_activePositions.
    by apply Hc. }
  assert (crossCorrelation X Y mask = Ok NonFinite) as Heq.
  { rewrite crossCorrelation_eq by done. by rewrite Hdev, Rmult_0_l, fdiv_zero. }
  split; [done|].
  assert (Mat_empty mask = true ∨ sameSize Y mask = true) as HmaskY.
  { destruct Hmask as [?|Hs]; [by left|right].
    apply sameSize_true in HXY as [HrY HcY]. apply sameSize_true in Hs.
    apply sameSize_true. split; lia. }
  rewrite crossCorrelation_eq by (done || by apply sameSize_sym).
  by rewrite Hdev, Rmult_0_r, fdiv_zero.
Qed.

Lemma crossCorrelation_constant_witness :
  crossCorrelation exampleRow exampleRow (mkMat 1 4 [[0; 0; 7; 0]]) = Ok NonFinite ∧
  crossCorrelation exampleRow exampleRow (mkMat 1 4 [[0; 0; 7; 0]]) = Ok NonFinite.
Proof.
  apply (crossCorrelation_constant exampleRow exampleRow
           (mkMat 1 4 [[0; 0; 7; 0]]) 3%R).
  - reflexivity.
  - right. reflexivity.
  - repeat constructor; lia.
  - intros i j Hi Hj. simpl in Hi, Hj.
    assert (i = 0%Z) as -> by lia.
    assert (j = 0 ∨ j = 1 ∨ j = 2 ∨ j = 3)%Z as [->|[->|[->| ->]]] by lia;
      intros Hact; first [by vm_compute in Hact|reflexivity].
Defined.

Section SampleLookup.
Local Open Scope R_scope.
Implicit Types (X Y : Mat R) (mask : Mat Z).

Lemma atf_inside X (i j : Z) :
  wfMat X → (0 ≤ i < rows X)%Z → (0 ≤ j < cols X)%Z →
  ∃ r v, lookupZ (data X) i = Some r ∧ lookupZ r j = Some v ∧ atf X i j = v.
Proof.
  intros Hwf Hi Hj. unfold atf, Mat_at.
  destruct (lookupZ (data X) i) as [r|] eqn:Hr;
    [|by apply (lookupZ_wf_None X) in Hr].
  pose proof (lookupZ_wf X i r Hwf Hr) as [_ Hlen].
  simpl. destruct (lookupZ r j) as [v|] eqn:Hv; [by exists r, v|].
  unfold lookupZ in Hv. rewrite bool_decide_eq_true_2 in Hv by lia.
  apply lookup_ge_None in Hv. lia.
Qed.

End SampleLookup.

(** ** [minMaxLoc] and [normalizeOne] *)

Section MinMax.
Local Open Scope R_scope.

Lemma foldl_Rmin_spec (x : R) (l : list R) :
  foldl Rmin x l ∈ x :: l ∧ ∀ v, v ∈ x :: l → foldl Rmin x l <= v.
Proof.
  revert x. induction l as [|y l IH]; intros x; simpl.
  - split; [apply list_elem_of_here|]. intros v ->%list_elem_of_singleton. lra.
  - destruct (IH (Rmin x y)) as [Hin Hle]. split.
    + apply elem_of_cons in Hin as [Heq|Hin].
      * rewrite Heq. unfold Rmin. destruct (Rle_dec x y);
          [apply list_elem_of_here|apply list_elem_of_further, list_elem_of_here].
      * by do 2 apply list_elem_of_further.
    + intros v Hv.
      pose proof (Hle (Rmin x y) (list_elem_of_here _ _)) as Hm.
      pose proof (Rmin_l x y). pose proof (Rmin_r x y).
      apply elem_of_cons in Hv as [->|Hv]; [lra|].
      apply elem_of_cons in Hv as [->|Hv]; [lra|].
      apply Hle. by apply list_elem_of_further.
Qed.

Lemma foldl_Rmax_spec (x : R) (l : list R) :
  foldl Rmax x l ∈ x :: l ∧ ∀ v, v ∈ x :: l → v <= foldl Rmax x l.
Proof.
  revert x. induction l as [|y l IH]; intros x; simpl.
  - split; [apply list_elem_of_here|]. intros v ->%list_elem_of_singleton. lra.
  - destruct (IH (Rmax x y)) as [Hin Hle]. split.
    + apply elem_of_cons in Hin as [Heq|Hin].
      * rewrite Heq. unfold Rmax. destruct (Rle_dec x y);
          [apply list_elem_of_further, list_elem_of_here|apply list_elem_of_here].
      * by do 2 apply list_elem_of_further.
    + intros v Hv.
      pose proof (Hle (Rmax x y) (list_elem_of_here _ _)) as Hm.
      pose proof (Rmax_l x y). pose proof (Rmax_r x y).
      apply elem_of_cons in Hv as [->|Hv]; [lra|].
      apply elem_of_cons in Hv as [->|Hv]; [lra|].
      apply Hle. by apply list_elem_of_further.
Qed.

(** [minMaxLoc] returns a lower and an upper bound of the samples, both
    of them sample values. *)
Lemma minMaxLoc_spec (src : Mat R) :
  concat (data src) ≠ [] →
  (minMaxLoc src).1 ∈ concat (data src) ∧
  (minMaxLoc src).2 ∈ concat (data src) ∧
  ∀ v, v ∈ concat (data src) → (minMaxLoc src).1 <= v <= (minMaxLoc src).2.
Proof.
  unfold minMaxLoc. destruct (concat (data src)) as [|x l]; [done|]. intros _.
  destruct (foldl_Rmin_spec x l) as [Hmin Hle].
  destruct (foldl_Rmax_spec x l) as [Hmax Hge]. simpl.
  split; [done|]. split; [done|]. intros v Hv. split; [by apply Hle|by apply Hge].
Qed.

Lemma minMaxLoc_le (src : Mat R) : (minMaxLoc src).1 <= (minMaxLoc src).2.
Proof.
  destruct (decide (concat (data src) = [])) as [Hnil|Hne].
  - unfold minMaxLoc. rewrite Hnil. simpl. lra.
  - destruct (minMaxLoc_spec src Hne) as (Hin & _ & Hb). by apply Hb in Hin as [_ ?].
Qed.
End MinMax.

(** X9. On a one-channel grid that is not zero everywhere [normalizeOne]
    asks the library for the target range [min/s, max/s] with
    [s = max(|min|, |max|)]: a range inside [-1, 1] one end of which has
    absolute value 1, so that the sign of the samples is kept. *)
Theorem normalizeOne_range
    (normalize : Mat R → fval → fval → Mat R)
    (normalizeOneChannels : list (Mat R) → list (Mat R)) (m : Mat R) :
  (minMaxLoc m).1 ≠ 0%R ∨ (minMaxLoc m).2 ≠ 0%R →
  ∃ a b, normalizeOne normalize normalizeOneChannels (Mat1 m) =
         Ok (Mat1 (normalize m (Finite a) (Finite b))) ∧
         (a = (minMaxLoc m).1 / Rmax (Rabs (minMaxLoc m).1) (Rabs (minMaxLoc m).2))%R ∧
         (b = (minMaxLoc m).2 / Rmax (Rabs (minMaxLoc m).1) (Rabs (minMaxLoc m).2))%R ∧
         (-1 <= a <= b)%R ∧ (b <= 1)%R ∧ Rmax (Rabs a) (Rabs b) = 1%R.
Proof.
  intros Hnz. pose proof (minMaxLoc_le m) as Hle. unfold normalizeOne.
  destruct (minMaxLoc m) as [mn mx]. simpl in *.
  set (s := Rmax (Rabs mn) (Rabs mx)).
  assert (Rabs mn <= s)%R as Hmn by apply Rmax_l.
  assert (Rabs mx <= s)%R as Hmx by apply Rmax_r.
  assert (0 < s)%R as Hs.
  { destruct Hnz as [H|H]; apply Rabs_pos_lt in H; lra. }
  unfold fdiv. destruct (Req_dec_T s 0) as [|_]; [lra|].
  eexists _, _. split; [reflexivity|]. split; [done|]. split; [done|].
  assert (∀ x, (x / s * s = x)%R) as Hdiv by (intros; field; lra).
  assert (∀ x, (Rabs x <= s → -1 <= x / s <= 1)%R) as Hunit.
  { intros x Hx. pose proof (Rle_abs x). pose proof (Rle_abs (- x)) as Hneg.
    rewrite Rabs_Ropp in Hneg.
    split; apply (Rmult_le_reg_r s); try done; rewrite Hdiv; lra. }
  assert (mn / s <= mx / s)%R as Hab
    by (apply (Rmult_le_reg_r s); [done|]; rewrite !Hdiv; lra).
  split; [split; [by apply Hunit|done]|]. split; [by apply Hunit|].
  assert (∀ x, Rabs (x / s) = (Rabs x / s)%R) as Habs.
  { intros x. unfold Rdiv. rewrite Rabs_mult, (Rabs_pos_eq (/ s)); [done|].
    left. by apply Rinv_0_lt_compat. }
  rewrite !Habs.
  assert (Rmax (Rabs mn / s) (Rabs mx / s) = (s / s)%R) as ->.
  { destruct (Rle_dec (Rabs mn) (Rabs mx)) as [H|H].
    - assert (s = Rabs mx) as Hs' by (unfold s; by apply Rmax_right).
      rewrite Rmax_right; [by rewrite <-Hs'|].
      apply (Rmult_le_reg_r s); [done|]. by rewrite !Hdiv.
    - assert (s = Rabs mn) as Hs' by (unfold s; apply Rmax_left; lra).
      rewrite Rmax_left; [by rewrite <-Hs'|].
      apply (Rmult_le_reg_r s); [done|]. rewrite !Hdiv. lra. }
  field. lra.
Qed.

(** A grid with minimum -2 and maximum 4 *)
Lemma normalizeOne_range_witness :
  ∃ a b, normalizeOne (λ m _ _, m) (λ l, l) (Mat1 (mkMat 1 3 [[-2; 1; 4]%R])) =
         Ok (Mat1 (mkMat 1 3 [[-2; 1; 4]%R])) ∧
         (-1 <= a <= b)%R ∧ (b <= 1)%R ∧ Rmax (Rabs a) (Rabs b) = 1%R.
Proof.
  destruct (normalizeOne_range (λ m _ _, m) (λ l, l) (mkMat 1 3 [[-2; 1; 4]%R]))
    as (a & b & Heq & _ & _ & Hab & Hb & Hmax).
  - left. simpl. unfold Rmin. repeat destruct (Rle_dec _ _); lra.
  - exists a, b. split; [exact Heq|]. split; [exact Hab|]. split; [exact Hb|exact Hmax].
Defined.

(** ** Further properties of [swapQuadrants] *)

Lemma swapSource_shift (n c i : Z) :
  n = 2 * c → 0 ≤ i < n → swapSource c i = (i + c) mod n.
Proof.
  intros -> Hi. unfold swapSource.
  destruct (Z.ltb_spec i c); [by rewrite Z.mod_small by lia|].
  destruct (Z.ltb_spec i (2 * c)); [|lia].
  replace (i + c) with ((i - c) + 1 * (2 * c)) by lia.
  rewrite Z.mod_add by lia. by rewrite Z.mod_small by lia.
Qed.

(** X10. On a grid with an even number of rows and of columns
    [swapQuadrants] is the cyclic shift by half the size in both
    directions: the sample at [(0, 0)] moves to the centre. *)
Theorem swapQuadrants_shift {A} (d : A) (image : Mat A) :
  wfMat image → rows image mod 2 = 0 → cols image mod 2 = 0 →
  ∃ out, swapQuadrants d image = Ok out ∧ wfMat out ∧
         rows out = rows image ∧ cols out = cols image ∧
         ∀ i j, 0 ≤ i < rows image → 0 ≤ j < cols image →
           Mat_at d out i j =
           Mat_at d image ((i + rows image ÷ 2) mod rows image)
                          ((j + cols image ÷ 2) mod cols image).
Proof.
  intros Hwf Hr Hc.
  destruct (swapQuadrants_at d image Hwf) as (out & Heq & Hwf' & Hrows & Hcols & Hat).
  exists out. split; [done|]. split; [done|]. split; [done|]. split; [done|].
  intros i j Hi Hj. rewrite Hat by done.
  assert (rows image = 2 * (rows image ÷ 2)) as Hr2
    by (Z.to_euclidean_division_equations; lia).
  assert (cols image = 2 * (cols image ÷ 2)) as Hc2
    by (Z.to_euclidean_division_equations; lia).
  rewrite (proj2 (Z.ltb_lt i _)), (proj2 (Z.ltb_lt j _)) by lia. simpl.
  by rewrite (swapSource_shift (rows image)), (swapSource_shift (cols image)).
Qed.

Lemma swapQuadrants_shift_witness :
  ∃ out, swapQuadrants 0 (mkMat 2 4 [[1; 2; 3; 4]; [5; 6; 7; 8]]) = Ok out ∧
         Mat_at 0 out 1 2 = 1.
Proof.
  destruct (swapQuadrants_shift 0 (mkMat 2 4 [[1; 2; 3; 4]; [5; 6; 7; 8]]))
    as (out & Heq & _ & _ & _ & Hat).
  - repeat split; simpl; try lia. repeat constructor.
  - reflexivity.
  - reflexivity.
  - exists out. split; [exact Heq|]. rewrite Hat by (simpl; lia). reflexivity.
Defined.

(** X11. [swapQuadrants] does not fail on a well-formed grid and keeps
    its size; when the number of rows (of columns) is odd, the last row
    (column) stays where it is. *)
Theorem swapQuadrants_odd {A} (d : A) (image : Mat A) :
  wfMat image →
  ∃ out, swapQuadrants d image = Ok out ∧ wfMat out ∧
         rows out = rows image ∧ cols out = cols image ∧
         ∀ i j, 0 ≤ i < rows image → 0 ≤ j < cols image →
           (rows image mod 2 = 1 ∧ i = rows image - 1) ∨
           (cols image mod 2 = 1 ∧ j = cols image - 1) →
           Mat_at d out i j = Mat_at d image i j.
Proof.
  intros Hwf.
  destruct (swapQuadrants_at d image Hwf) as (out & Heq & Hwf' & Hrows & Hcols & Hat).
  exists out. split; [done|]. split; [done|]. split; [done|]. split; [done|].
  intros i j Hi Hj Hodd. rewrite Hat by done.
  destruct (Z.ltb_spec i (2 * (rows image ÷ 2))),
           (Z.ltb_spec j (2 * (cols image ÷ 2))); simpl; try done.
  exfalso. Z.to_euclidean_division_equations; lia.
Qed.

Lemma swapQuadrants_odd_witness :
  ∃ out, swapQuadrants 0 (mkMat 3 3 [[1; 2; 3]; [4; 5; 6]; [7; 8; 9]]) = Ok out ∧
         Mat_at 0 out 2 0 = 7 ∧ Mat_at 0 out 0 2 = 3.
Proof.
  destruct (swapQuadrants_odd 0 (mkMat 3 3 [[1; 2; 3]; [4; 5; 6]; [7; 8; 9]]))
    as (out & Heq & _ & _ & _ & Hat).
  - repeat split; simpl; try lia. repeat constructor.
  - exists out. split; [exact Heq|].
    split.
    + rewrite Hat; [reflexivity|simpl; lia|simpl; lia|left; split; reflexivity].
    + rewrite Hat; [reflexivity|simpl; lia|simpl; lia|right; split; reflexivity].
Defined.


(** ** Further properties of the edge taper *)

(** X12. For a rectangle that lies inside the image, [fillPixel] gives
    the colour to the samples of the rectangle spanned by [start] and
    [end_] (both corners included) and leaves every other sample and the
    size as they are; with an end before the start it stores nothing. *)
Theorem fillPixel_rectangle (image : Mat Z) (start end_ : Point) (color : Z) :
  wfMat image →
  (0 ≤ py start → py end_ < rows image → 0 ≤ px start → px end_ < cols image →
   wfMat (fillPixel image start end_ color) ∧
   rows (fillPixel image start end_ color) = rows image ∧
   cols (fillPixel image start end_ color) = cols image ∧
   ∀ i j, 0 ≤ i < rows image → 0 ≤ j < cols image →
     atu (fillPixel image start end_ color) i j =
     if bool_decide (py start ≤ i ≤ py end_ ∧ px start ≤ j ≤ px end_)
     then color else atu image i j) ∧
  (py end_ < py start ∨ px end_ < px start →
   fillPixel image start end_ color = image).
Proof.
  intros Hwf.
  destruct (fillPixel_spec image start end_ color Hwf) as (Hwf' & Hr & Hc & Hat).
  split.
  - intros _ _ _ _. split; [done|]. split; [done|]. split; [done|].
    intros i j Hi Hj. rewrite Hat. repeat case_bool_decide; try done; lia.
  - intros Hempty. apply (Mat_ext 0); [done..|]. intros i j Hi Hj.
    fold (atu (fillPixel image start end_ color) i j) (atu image i j).
    rewrite Hat. by rewrite bool_decide_eq_false_2 by lia.
Qed.

Lemma fillPixel_rectangle_witness :
  atu (fillPixel (rowImage [5; 0; 0; 0; 9]) (mkPoint 1 0) (mkPoint 3 0) 4) 0 3 = 4 ∧
  fillPixel (rowImage [5; 0; 0; 0; 9]) (mkPoint 3 0) (mkPoint 1 0) 4 =
  rowImage [5; 0; 0; 0; 9].
Proof.
  destruct (fillPixel_rectangle (rowImage [5; 0; 0; 0; 9]) (mkPoint 1 0) (mkPoint 3 0) 4)
    as [Hinside _]; [apply rowImage_wf|].
  destruct Hinside as (_ & _ & _ & Hat); [simpl; lia..|].
  destruct (fillPixel_rectangle (rowImage [5; 0; 0; 0; 9]) (mkPoint 3 0) (mkPoint 1 0) 4)
    as [_ Hempty]; [apply rowImage_wf|].
  split; [rewrite Hat by (simpl; lia); reflexivity|].
  apply Hempty. right. simpl. lia.
Defined.

(** X13. An image without a zero sample passes through both fill scans
    unchanged. *)
Theorem taper_without_gaps (src : Mat Z) :
  (∀ i j, 0 ≤ i < rows src → 0 ≤ j < cols src → 0 < atu src i j) →
  taperedHorizontal src = src ∧ taperedVertical src = src.
Proof.
  intros Hpos. split.
  - unfold taperedHorizontal, horizontalScan.
    rewrite (forZ_ind (λ st, st = mkScan 0 noPoint src)); [done..|].
    intros row st Hrow ->. apply forZ_ind; [done|]. intros col st Hcol ->.
    unfold horizontalStep, threshold. cbn [start Point_eqb noPoint px py negb].
    simpl. by rewrite (proj2 (Z.leb_gt _ _)) by (apply Hpos; lia).
  - unfold taperedVertical.
    rewrite (forZ_ind (λ st, st = mkScan 0 noPoint src)); [done..|].
    intros col st Hcol ->. apply forZ_ind; [done|]. intros row st Hrow ->.
    unfold verticalStep, threshold. cbn [start Point_eqb noPoint px py negb].
    simpl. by rewrite (proj2 (Z.leb_gt _ _)) by (apply Hpos; lia).
Qed.

Lemma taper_without_gaps_witness :
  taperedHorizontal (mkMat 2 2 [[3; 1]; [4; 1]]) = mkMat 2 2 [[3; 1]; [4; 1]] ∧
  taperedVertical (mkMat 2 2 [[3; 1]; [4; 1]]) = mkMat 2 2 [[3; 1]; [4; 1]].
Proof.
  apply (taper_without_gaps (mkMat 2 2 [[3; 1]; [4; 1]])).
  intros i j Hi Hj. simpl in Hi, Hj.
  assert (i = 0 ∨ i = 1) as [->| ->] by lia;
    assert (j = 0 ∨ j = 1) as [->| ->] by lia; reflexivity.
Defined.

(** X14. When the mask is zero over the whole image, the scan over the
    mask leaves the blended image as it is. *)
Theorem maskScan_zero_mask (src mask dst : Mat Z) :
  (∀ i j, 0 ≤ i < rows src → 0 ≤ j < cols src → atu mask i j = 0) →
  maskScan src mask dst = dst.
Proof.
  intros Hzero. unfold maskScan.
  rewrite (forZ_ind (λ st, st = mkScan 0 noPoint dst)); [done..|].
  intros row st Hrow ->. apply forZ_ind; [done|]. intros col st Hcol ->.
  unfold maskStep. cbn [start Point_eqb noPoint px py negb]. simpl.
  by rewrite Hzero by lia.
Qed.

Lemma maskScan_zero_mask_witness :
  maskScan (rowImage [5; 0; 9]) (rowImage [0; 0; 0]) (rowImage [5; 7; 9]) =
  rowImage [5; 7; 9].
Proof.
  apply (maskScan_zero_mask (rowImage [5; 0; 9]) (rowImage [0; 0; 0])).
  intros i j Hi Hj. simpl in Hi, Hj. assert (i = 0) as -> by lia.
  assert (j = 0 ∨ j = 1 ∨ j = 2) as [->|[->| ->]] by lia; reflexivity.
Defined.

(** X15. A run of zero samples that has a nonzero sample on either side
    in its row is closed by the horizontal scan: each of its samples
    receives the value of one of the two neighbours, so none stays
    zero. *)
Theorem horizontal_gap_closed (src : Mat Z) (r s e : Z) :
  wfMat src → ucharMat src → 0 ≤ r < rows src → zeroRun src r s e →
  ∀ k, s ≤ k ≤ e →
    (atu (taperedHorizontal src) r k = atu src r (s - 1) ∨
     atu (taperedHorizontal src) r k = atu src r (e + 1)) ∧
    atu (taperedHorizontal src) r k ≠ 0.
Proof.
  intros Hwf Hu Hr (Hse & He & Hleft & Hzero & Hright) k Hk.
  pose proof Hleft as Hl. pose proof Hright as Hr'.
  apply (uchar_nonzero _ _ _ Hu) in Hleft, Hright.
  pose proof (run_closed src Hwf r s (e + 1) Hr ltac:(lia) ltac:(lia)
                (scanBefore_after_nonzero src Hwf r s ltac:(lia) ltac:(lia) Hleft)
                ltac:(intros; apply Hzero; lia) (or_introl Hright) k ltac:(lia))
    as Hfill.
  cbv zeta in Hfill. rewrite (proj2 (Z.eqb_neq s 0)) in Hfill by lia.
  rewrite Hfill.
  destruct (bool_decide _), (e + 1 =? cols src - 1); split; auto.
Qed.

Lemma horizontal_gap_closed_witness :
  atu (taperedHorizontal (rowImage [5; 0; 0; 0; 9])) 0 2 ≠ 0.
Proof.
  apply (horizontal_gap_closed (rowImage [5; 0; 0; 0; 9]) 0 1 3).
  - apply rowImage_wf.
  - repeat constructor; lia.
  - simpl. lia.
  - split; [lia|]. split; [simpl; lia|]. split; [by vm_compute|].
    split; [|by vm_compute].
    intros k Hk. assert (k = 1 ∨ k = 2 ∨ k = 3) as [->|[->| ->]] by lia;
      reflexivity.
  - lia.
Defined.

(** X16. Given a source that has samples and a mask of its size,
    [edgeTaper] fails exactly when the guide image does not have that
    size, and then with the error of the OpenCV routine that compares the
    sizes. *)
Theorem edgeTaper_failure
    (saturate_uchar : R → Z) (gaussianSample : Mat Z → Z → Z → Z → Z)
    (src mask image : Mat Z) :
  Mat_empty src = false → sameSize src mask = true →
  (isErr (edgeTaper saturate_uchar gaussianSample src mask image) ↔
   sameSize src image = false) ∧
  (sameSize src image = false →
   edgeTaper saturate_uchar gaussianSample src mask image = Err CvArgumentError).
Proof.
  intros _ Hmask.
  destruct (taperedHorizontal_size src) as [HrH HcH].
  destruct (taperedVertical_size src) as [HrV HcV].
  destruct (addWeighted_Ok saturate_uchar (taperedHorizontal src) 0.5
              (taperedVertical src) 0.5 0.0) as (dst1 & Hdst1 & Hr1 & Hc1);
    [congruence..|].
  destruct (maskScan_size src mask dst1) as [HrM HcM]; [congruence..|].
  unfold edgeTaper. cbv zeta. rewrite Hdst1. cbn [mbind result_bind].
  unfold addWeighted.
  assert (sameSize (maskScan src mask dst1) (GaussianBlur gaussianSample image 19) =
          sameSize src image) as ->.
  { unfold sameSize. simpl. by rewrite HrM, HcM. }
  destruct (sameSize src image); cbn [mbind result_bind].
  - unfold copyTo_mask. rewrite Hmask. simpl. split; [split; done|done].
  - simpl. split; [split; done|done].
Qed.

Lemma edgeTaper_failure_witness :
  edgeTaper roundToUchar noBlur (rowImage [5; 0; 9]) (rowImage [1; 1; 0]) (rowImage [5; 0]) =
  Err CvArgumentError.
Proof.
  apply (edgeTaper_failure roundToUchar noBlur); reflexivity.
Defined.

Section SourceValues.
Variable src : Mat Z.
Hypothesis src_wf : wfMat src.
Implicit Types (st : Scan).

Lemma atu_outside (m : Mat Z) (i j : Z) :
  wfMat m → ¬ (0 ≤ i < rows m ∧ 0 ≤ j < cols m) → atu m i j = 0.
Proof.
  intros Hwf Hout. unfold atu, Mat_at.
  destruct (lookupZ (data m) i) as [r|] eqn:Hr; [|done]. simpl.
  apply (lookupZ_wf m) in Hr as [Hi Hlen]; [|done].
  destruct (lookupZ r j) as [v|] eqn:Hv; [|done].
  apply lookupZ_Some in Hv as [Hj Hv]. apply lookup_lt_Some in Hv. lia.
Qed.

Lemma sourceValue_src (i j : Z) : sourceValue src (atu src i j).
Proof.
  destruct (decide (0 ≤ i < rows src ∧ 0 ≤ j < cols src)) as [[Hi Hj]|Hout].
  - right. by exists i, j.
  - left. by apply atu_outside.
Qed.

Lemma horizontalStep_sourceValue (row col : Z) st :
  canvasOK src st →
  sourceValue src (left st) ∧ (∀ i j, sourceValue src (atu (canvas st) i j)) →
  sourceValue src (left (horizontalStep src row col st)) ∧
  ∀ i j, sourceValue src (atu (canvas (horizontalStep src row col st)) i j).
Proof.
  intros (Hwf & _ & _) [Hleft Hcanvas].
  destruct (stepKind src row col st) eqn:Hkind.
  - destruct (horizontalStep_closing src row col st Hwf Hkind)
      as (_ & _ & _ & -> & _ & _ & _ & Hat).
    assert (sourceValue src (firstColour src row col st)) as Hfirst.
    { unfold firstColour. destruct (_ =? _); [apply sourceValue_src|done]. }
    split; [done|]. intros i j. rewrite Hat. unfold secondColour.
    repeat case_bool_decide; try done.
    destruct (_ =? _); [done|apply sourceValue_src].
  - by apply horizontalStep_inside in Hkind as (_ & _ & _ & ->).
  - apply horizontalStep_opening in Hkind as (_ & _ & ->). simpl.
    split; [|done]. destruct (0 <? col); [apply sourceValue_src|by left].
  - by apply horizontalStep_outside in Hkind as (_ & _ & ->).
Qed.
End SourceValues.

(** X17. The horizontal scan invents no value: every sample of its
    result is zero or the value of some sample of the source; in
    particular an 8-bit image stays an 8-bit image. *)
Theorem taperedHorizontal_values (src : Mat Z) :
  wfMat src →
  (∀ i j, sourceValue src (atu (taperedHorizontal src) i j)) ∧
  (ucharMat src → ∀ i j, 0 ≤ atu (taperedHorizontal src) i j < 256).
Proof.
  intros Hwf.
  assert (∀ i j, sourceValue src (atu (taperedHorizontal src) i j)) as Hval.
  { unfold taperedHorizontal, horizontalScan.
    apply (forZ_ind (λ st, canvasOK src st ∧ sourceValue src (left st) ∧
                           ∀ i j, sourceValue src (atu (canvas st) i j))).
    - split; [by split|]. split; [by left|]. intros i j. by apply sourceValue_src.
    - intros row st _ Hst.
      apply (forZ_ind (λ st, canvasOK src st ∧ sourceValue src (left st) ∧
                             ∀ i j, sourceValue src (atu (canvas st) i j)));
        [done|].
      intros col st' _ (HOK & Hinv).
      split; [by apply horizontalStep_canvasOK|].
      by apply horizontalStep_sourceValue. }
  split; [done|]. intros Hu i j.
  destruct (Hval i j) as [->|(i' & j' & _ & _ & <-)]; [lia|by apply atu_uchar].
Qed.

Lemma taperedHorizontal_values_witness :
  sourceValue (rowImage [5; 0; 0; 0; 9]) (atu (taperedHorizontal (rowImage [5; 0; 0; 0; 9])) 0 2).
Proof.
  apply (taperedHorizontal_values (rowImage [5; 0; 0; 0; 9])).
  apply rowImage_wf.
Defined.

(** ** The vertical scan is the horizontal scan of the transposed image *)

Section Transposition.
Variable src : Mat Z.
Hypothesis src_wf : wfMat src.
Implicit Types (stV stH : Scan).

Lemma forZ_rel {S T} (Rel : S → T → Prop) (lo n : Z)
    (f : Z → S → S) (g : Z → T → T) (s : S) (t : T) :
  Rel s t →
  (∀ i s t, lo ≤ i < lo + n → Rel s t → Rel (f i s) (g i t)) →
  Rel (forZ lo n f s) (forZ lo n g t).
Proof.
  unfold forZ. intros Hst Hstep.
  assert (Forall (λ i, lo ≤ i < lo + n) (seqZ lo n)) as Hl
    by (apply Forall_seqZ; auto).
  revert s t Hst. induction Hl as [|i l Hi _ IH]; intros s t Hst; simpl; auto.
Qed.

Lemma Mat_transpose_at (m : Mat Z) (i j : Z) :
  wfMat m → atu (Mat_transpose m) i j = atu m j i.
Proof.
  intros Hwf. pose proof Hwf as (Hr & Hc & _).
  destruct (decide (0 ≤ i < cols m ∧ 0 ≤ j < rows m)) as [[Hi Hj]|Hout].
  - unfold Mat_transpose, atu at 1. by rewrite tabulate_at.
  - rewrite atu_outside; [|by apply tabulate_wf|simpl; lia].
    symmetry. apply atu_outside; [done|lia].
Qed.

(** Two fills over transposed rectangles keep the canvases transposed. *)
Lemma fillPixel_transposed (cV cH : Mat Z) (sV eV sH eH : Point) (color : Z) :
  wfMat cV → wfMat cH →
  rows cH = cols cV → cols cH = rows cV →
  (∀ i j, atu cH i j = atu cV j i) →
  px sH = py sV → py sH = px sV → px eH = py eV → py eH = px eV →
  wfMat (fillPixel cV sV eV color) ∧ wfMat (fillPixel cH sH eH color) ∧
  rows (fillPixel cH sH eH color) = cols (fillPixel cV sV eV color) ∧
  cols (fillPixel cH sH eH color) = rows (fillPixel cV sV eV color) ∧
  ∀ i j, atu (fillPixel cH sH eH color) i j = atu (fillPixel cV sV eV color) j i.
Proof.
  intros HwfV HwfH Hr Hc Hat Hsx Hsy Hex Hey.
  destruct (fillPixel_spec cV sV eV color HwfV) as (HwfV' & HrV & HcV & HatV).
  destruct (fillPixel_spec cH sH eH color HwfH) as (HwfH' & HrH & HcH & HatH).
  split; [done|]. split; [done|]. split; [lia|]. split; [lia|].
  intros i j. rewrite HatV, HatH, Hat.
  repeat case_bool_decide; try done; lia.
Qed.

Lemma step_transposed (col row : Z) stV stH :
  0 ≤ col < cols src → 0 ≤ row < rows src →
  transposedScan stV stH →
  transposedScan (verticalStep src col row stV)
                 (horizontalStep (Mat_transpose src) col row stH).
Proof.
  intros Hcol Hrow (Hleft & Hpx & Hpy & HwfV & HwfH & Hr & Hc & Hat).
  unfold verticalStep, horizontalStep.
  rewrite Mat_transpose_at by done.
  assert (Point_eqb (start stH) noPoint = Point_eqb (start stV) noPoint) as ->.
  { unfold Point_eqb, noPoint. simpl. rewrite Hpx, Hpy. apply andb_comm. }
  assert (cols (Mat_transpose src) = rows src) as -> by done.
  destruct (negb (Point_eqb (start stV) noPoint)).
  - destruct ((threshold <? atu src row col) || (row =? rows src - 1)); [|done].
    rewrite Hpx, Hpy, Hleft.
    set (c1 := if py (start stV) =? 0 then atu src row col else left stV).
    set (c2 := if row =? rows src - 1 then c1 else atu src row col).
    set (eV := mkPoint (col - (col - px (start stV)) ÷ 2)
                       (row - (row - py (start stV)) ÷ 2)).
    set (eH := mkPoint (row - (row - py (start stV)) ÷ 2)
                       (col - (col - px (start stV)) ÷ 2)).
    destruct (fillPixel_transposed (canvas stV) (canvas stH) (start stV) eV
                (start stH) eH c1) as (HwfV1 & HwfH1 & Hr1 & Hc1 & Hat1);
      [done..|].
    destruct (fillPixel_transposed _ _ eV (mkPoint col row) eH (mkPoint row col) c2
                HwfV1 HwfH1 Hr1 Hc1 Hat1) as (HwfV2 & HwfH2 & Hr2 & Hc2 & Hat2);
      [done..|].
    unfold transposedScan. simpl. split_and!; try done.
  - destruct (atu src row col <=? threshold); [|done].
    unfold transposedScan. simpl. split_and!; try done.
    destruct (0 <? row) eqn:Hpos; [|done]. by apply Mat_transpose_at.
Qed.
End Transposition.

(** X18. The vertical fill scan of an image is the horizontal fill scan
    of the transposed image, transposed back. *)
Theorem taperedVertical_transposed (src : Mat Z) :
  wfMat src →
  taperedVertical src = Mat_transpose (taperedHorizontal (Mat_transpose src)).
Proof.
  intros Hwf. pose proof Hwf as (Hr & Hc & _).
  assert (transposedScan
            (forZ 0 (cols src) (λ col, forZ 0 (rows src) (λ row, verticalStep src col row))
               (mkScan 0 noPoint src))
            (horizontalScan (Mat_transpose src)))
    as (_ & _ & _ & HwfV & HwfH & Hrows & Hcols & Hat).
  { unfold horizontalScan.
    change (rows (Mat_transpose src)) with (cols src).
    change (cols (Mat_transpose src)) with (rows src).
    apply forZ_rel.
    - unfold transposedScan. simpl. split_and!; try done.
      + by apply tabulate_wf.
      + intros i j. by apply Mat_transpose_at.
    - intros col stV stH Hcol Hrel. apply forZ_rel; [done|].
      intros row stV' stH' Hrow Hrel'. by apply step_transposed. }
  unfold taperedVertical, taperedHorizontal.
  apply (Mat_ext 0); [done|apply tabulate_wf; by destruct HwfH as (? & ? & _)|..].
  - simpl. lia.
  - simpl. lia.
  - intros i j Hi Hj. unfold Mat_transpose at 1.
    rewrite tabulate_at by lia. symmetry. apply Hat.
Qed.

Lemma taperedVertical_transposed_witness :
  taperedVertical (mkMat 3 2 [[5; 0]; [0; 0]; [9; 4]]) =
  Mat_transpose (taperedHorizontal (Mat_transpose (mkMat 3 2 [[5; 0]; [0; 0]; [9; 4]]))).
Proof.
  apply (taperedVertical_transposed (mkMat 3 2 [[5; 0]; [0; 0]; [9; 4]])).
  repeat split; simpl; try lia. repeat constructor.
Defined.


(** * Further properties: the helpers around the transforms *)

(** ** Samples of a grid *)

Section Samples.
Implicit Types (m : Mat R).

Lemma atf_elem_of m (i j : Z) :
  wfMat m → 0 ≤ i < rows m → 0 ≤ j < cols m → atf m i j ∈ concat (data m).
Proof.
  intros Hwf Hi Hj.
  destruct (atf_inside m i j Hwf Hi Hj) as (r & v & Hr & Hv & ->).
  apply lookupZ_Some in Hr as [_ Hr]. apply lookupZ_Some in Hv as [_ Hv].
  apply list_elem_of_In, in_concat. exists r.
  split; apply list_elem_of_In; by eapply list_elem_of_lookup_2.
Qed.

Lemma concat_subtract m (c : R) :
  concat (data (Mat_subtract m c)) = (λ x, x - c)%R <$> concat (data m).
Proof.
  unfold Mat_subtract. simpl. induction (data m) as [|r l IH]; [done|].
  csimpl. by rewrite IH, fmap_app.
Qed.

Lemma atf_subtract m (c : R) (i j : Z) :
  wfMat m → 0 ≤ i < rows m → 0 ≤ j < cols m →
  atf (Mat_subtract m c) i j = (atf m i j - c)%R.
Proof.
  intros Hwf Hi Hj.
  destruct (atf_inside m i j Hwf Hi Hj) as (r & v & Hr & Hv & ->).
  unfold atf, Mat_at, Mat_subtract. simpl.
  rewrite lookupZ_fmap, Hr. simpl.
  by rewrite lookupZ_fmap, Hv.
Qed.

(** After [copy -= min] the minimum is 0 and the maximum is the spread. *)
Lemma minMaxLoc_subtract m :
  minMaxLoc (Mat_subtract m (minMaxLoc m).1) =
  (0%R, ((minMaxLoc m).2 - (minMaxLoc m).1)%R).
Proof.
  destruct (decide (concat (data m) = [])) as [Hnil|Hne].
  - unfold minMaxLoc at 1. rewrite concat_subtract, Hnil. simpl.
    unfold minMaxLoc. rewrite Hnil. simpl. f_equal. lra.
  - destruct (minMaxLoc_spec m Hne) as (Hlo & Hhi & Hb).
    set (lo := (minMaxLoc m).1) in *. set (hi := (minMaxLoc m).2) in *.
    assert (concat (data (Mat_subtract m lo)) ≠ []) as Hne'.
    { rewrite concat_subtract. by destruct (concat (data m)). }
    destruct (minMaxLoc_spec _ Hne') as (Hlo' & Hhi' & Hb').
    rewrite concat_subtract in Hlo', Hhi', Hb'.
    apply list_elem_of_fmap in Hlo' as (v1 & Hv1 & Hin1).
    apply list_elem_of_fmap in Hhi' as (v2 & Hv2 & Hin2).
    assert ((lo - lo)%R ∈ (λ x, x - lo)%R <$> concat (data m)) as H0
      by (apply list_elem_of_fmap; by exists lo).
    assert ((hi - lo)%R ∈ (λ x, x - lo)%R <$> concat (data m)) as H1
      by (apply list_elem_of_fmap; by exists hi).
    apply Hb' in H0, H1. apply Hb in Hin1, Hin2.
    destruct (minMaxLoc (Mat_subtract m lo)) as [mn mx]. simpl in *.
    f_equal; lra.
Qed.

Lemma Rleb_true (x y : R) : Rleb x y = true ↔ (x <= y)%R.
Proof. unfold Rleb. by destruct (Rle_dec x y). Qed.

Lemma Rltb_true (x y : R) : Rltb x y = true ↔ (x < y)%R.
Proof. unfold Rltb. by destruct (Rlt_dec x y). Qed.

Lemma Rltb_false (x y : R) : Rltb x y = false ↔ (y <= x)%R.
Proof. unfold Rltb. destruct (Rlt_dec x y); split; try done; lra. Qed.
End Samples.

(** X19. When the spread of the samples is at most the largest float, so
    that [copy -= min] does not overflow, [convertFloatToUchar] hands
    [convertTo] a finite scale between 0 and 255 and a grid whose scaled
    samples round into the 8-bit range: the division the code marks with
    a FIXME is not a division by zero, and nothing is clipped. *)
Theorem convertFloatToUchar_range (convertTo : Mat R → fval → Mat Z) (src : Mat R) :
  wfMat src →
  ((minMaxLoc src).2 - (minMaxLoc src).1 <= FLT_MAX)%R →
  ∃ copy s,
    convertFloatToUchar convertTo src = convertTo copy (Finite s) ∧
    (copy = src ∨ copy = Mat_subtract src (minMaxLoc src).1) ∧
    (0 < s <= 255)%R ∧
    ∀ i j, 0 ≤ i < rows src → 0 ≤ j < cols src →
      (0 <= atf copy i j * s < 255.5)%R.
Proof.
  intros Hwf _. unfold convertFloatToUchar.
  pose proof (minMaxLoc_subtract src) as Hsub.
  assert (∀ i j, 0 ≤ i < rows src → 0 ≤ j < cols src →
            (minMaxLoc src).1 <= atf src i j <= (minMaxLoc src).2)%R as Hb.
  { intros i j Hi Hj. pose proof (atf_elem_of src i j Hwf Hi Hj) as Hin.
    destruct (decide (concat (data src) = [])) as [Hnil|Hne].
    - rewrite Hnil in Hin. by apply elem_of_nil in Hin.
    - by apply (minMaxLoc_spec src Hne). }
  destruct (minMaxLoc src) as [lo hi]. simpl in *.
  destruct (Rleb 0 lo && Rltb hi 1) eqn:Hfirst.
  - apply andb_true_iff in Hfirst as [Hlo%Rleb_true Hhi%Rltb_true].
    exists src, 255%R. split; [done|]. split; [by left|]. split; [lra|].
    intros i j Hi Hj. specialize (Hb i j Hi Hj). lra.
  - rewrite Hsub. destruct (Rltb (hi - lo) 1) eqn:Hspread.
    + apply Rltb_true in Hspread.
      exists (Mat_subtract src lo), 255%R.
      split; [done|]. split; [by right|]. split; [lra|].
      intros i j Hi Hj. rewrite atf_subtract by done.
      specialize (Hb i j Hi Hj). lra.
    + apply Rltb_false in Hspread. unfold fdiv.
      destruct (Req_dec_T (hi - lo - 0) 0) as [|_]; [lra|].
      exists (Mat_subtract src lo), (255 / (hi - lo - 0))%R.
      split; [done|]. split; [by right|].
      assert (0 < / (hi - lo - 0) <= 1)%R as [Hinv Hinv1].
      { split; [apply Rinv_0_lt_compat; lra|].
        rewrite <-Rinv_1. apply Rinv_le_contravar; lra. }
      split; [unfold Rdiv; lra|].
      intros i j Hi Hj. rewrite atf_subtract by done.
      specialize (Hb i j Hi Hj).
      replace ((atf src i j - lo) * (255 / (hi - lo - 0)))%R
        with (255 * ((atf src i j - lo) * / (hi - lo - 0)))%R by (unfold Rdiv; ring).
      assert (0 <= (atf src i j - lo) * / (hi - lo - 0) <= 1)%R; [|lra].
      split; [apply Rmult_le_pos; lra|].
      apply (Rmult_le_reg_r (hi - lo - 0)); [lra|].
      rewrite Rmult_assoc, Rinv_l by lra. lra.
Qed.

(** A grid with minimum -2 and maximum 4 *)
Lemma convertFloatToUchar_range_witness :
  ∃ (copy : Mat R) (s : R),
    convertFloatToUchar (λ (x : Mat R) (_ : fval), Mat_zeros (rows x) (cols x))
      (mkMat 1 3 [[-2; 1; 4]%R]) =
      Mat_zeros (rows copy) (cols copy) ∧
    (0 < s <= 255)%R.
Proof.
  destruct (convertFloatToUchar_range
              (λ (x : Mat R) (_ : fval), Mat_zeros (rows x) (cols x))
              (mkMat 1 3 [[-2; 1; 4]%R]))
    as (copy & s & Heq & _ & Hs & _).
  - repeat split; simpl; try lia. repeat constructor.
  - simpl. unfold FLT_MAX, Rmin, Rmax. repeat destruct (Rle_dec _ _); lra.
  - exists copy, s. split; [exact Heq|exact Hs].
Defined.

(** X20. [showGradients] divides by the spread of the samples without a
    guard.  On an image that has samples and whose spread is at most the
    largest float, the scale it hands [convertTo] is not a finite number
    when the minimum equals the maximum (a division by zero), and is
    finite and positive otherwise. *)
Theorem showGradients_scale (convertTo : Mat R → fval → Mat Z)
    (name : string) (m : Mat R) (write : bool) :
  (∀ x s, sameSize (convertTo x s) x = true) →
  Mat_empty m = false →
  ((minMaxLoc m).2 - (minMaxLoc m).1 <= FLT_MAX)%R →
  ∃ scale,
    showGradients convertTo name (Mat1 m) write =
      Ok (Imshow name (convertTo (Mat_subtract m (minMaxLoc m).1) scale) ::
          if write
          then [Imwrite (name +:+ ".png")
                  (convertTo (Mat_subtract m (minMaxLoc m).1) scale)]
          else []) ∧
    ((minMaxLoc m).1 = (minMaxLoc m).2 → scale = NonFinite) ∧
    ((minMaxLoc m).1 ≠ (minMaxLoc m).2 → ∃ s, scale = Finite s ∧ (0 < s)%R).
Proof.
  intros Hsize Hempty _. unfold showGradients.
  pose proof (minMaxLoc_subtract m) as Hsub.
  pose proof (minMaxLoc_le m) as Hle.
  destruct (minMaxLoc m) as [lo hi]. simpl in *.
  rewrite Hsub. eexists. split.
  - unfold imshow.
    assert (Mat_empty (convertTo (Mat_subtract m lo) (fdiv 255 (hi - lo - 0))) =
            Mat_empty m) as ->.
    { specialize (Hsize (Mat_subtract m lo) (fdiv 255 (hi - lo - 0))).
      apply sameSize_true in Hsize as [Hr Hc]. unfold Mat_empty.
      by rewrite Hr, Hc. }
    rewrite Hempty. reflexivity.
  - unfold fdiv. destruct (Req_dec_T (hi - lo - 0) 0) as [Hz|Hnz].
    + split; [done|]. intros Hne. lra.
    + split; [intros ->; lra|]. intros Hne.
      eexists. split; [reflexivity|]. apply Rdiv_lt_0_compat; lra.
Qed.

Lemma showGradients_scale_witness :
  ∃ scale,
    showGradients (λ (x : Mat R) (_ : fval), Mat_zeros (rows x) (cols x)) "g"
      (Mat1 (mkMat 1 2 [[3; 3]%R])) false =
      Ok [Imshow "g" (Mat_zeros 1 2)] ∧
    scale = NonFinite.
Proof.
  destruct (showGradients_scale
              (λ (x : Mat R) (_ : fval), Mat_zeros (rows x) (cols x)) "g"
              (mkMat 1 2 [[3; 3]%R]) false)
    as (scale & Heq & Hconst & _).
  - intros x s. by apply sameSize_true.
  - done.
  - simpl. unfold FLT_MAX, Rmin, Rmax. repeat destruct (Rle_dec _ _); lra.
  - exists scale. split; [exact Heq|].
    apply Hconst. simpl. unfold Rmin, Rmax. by destruct (Rle_dec 3 3).
Defined.

(** X21. On an image whose samples spread over at least 1, [showFloat]
    and [showGradients] show and store the same 8-bit image. *)
Theorem showFloat_showGradients (convertTo : Mat R → fval → Mat Z)
    (name : string) (m : Mat R) (write : bool) :
  (1 <= (minMaxLoc m).2 - (minMaxLoc m).1)%R →
  showFloat convertTo name (Mat1 m) write =
  showGradients convertTo name (Mat1 m) write.
Proof.
  intros Hspread. unfold showFloat, showGradients, convertFloatToUchar.
  pose proof (minMaxLoc_subtract m) as Hsub.
  destruct (minMaxLoc m) as [lo hi]. simpl in *. rewrite Hsub.
  destruct (Rleb 0 lo && Rltb hi 1) eqn:Hfirst.
  { apply andb_true_iff in Hfirst as [Hlo%Rleb_true Hhi%Rltb_true]. lra. }
  destruct (Rltb (hi - lo) 1) eqn:Hlt; [apply Rltb_true in Hlt; lra|done].
Qed.

Lemma showFloat_showGradients_witness :
  showFloat (λ (_ : Mat R) (_ : fval), Mat_zeros 1 3) "g" (Mat1 (mkMat 1 3 [[-2; 1; 4]%R])) true =
  showGradients (λ (_ : Mat R) (_ : fval), Mat_zeros 1 3) "g" (Mat1 (mkMat 1 3 [[-2; 1; 4]%R])) true.
Proof.
  apply (showFloat_showGradients (λ (_ : Mat R) (_ : fval), Mat_zeros 1 3) "g" (mkMat 1 3 [[-2; 1; 4]%R]) true).
  simpl. unfold Rmin, Rmax. repeat destruct (Rle_dec _ _); lra.
Defined.

(** ** Gradient magnitude and real part *)

Section Loops.
Context {A : Type}.
Variable d : A.

(** Two nested loops that store [f row col] at every position *)
Lemma store_loops (m : Mat A) (f : Z → Z → A) :
  wfMat m →
  let m' := forZ 0 (rows m) (λ row,
              forZ 0 (cols m) (λ col m', Mat_set m' row col (f row col))) m in
  wfMat m' ∧ rows m' = rows m ∧ cols m' = cols m ∧
  ∀ i j, 0 ≤ i < rows m → 0 ≤ j < cols m → Mat_at d m' i j = f i j.
Proof.
  intros Hwf. cbv zeta. pose proof Hwf as (Hr & Hc & _).
  pose proof (forZ_invariant
    (λ r m', wfMat m' ∧ rows m' = rows m ∧ cols m' = cols m ∧
             ∀ i j, 0 ≤ i < r → 0 ≤ j < cols m → Mat_at d m' i j = f i j)
    0 (rows m)
    (λ row, forZ 0 (cols m) (λ col m', Mat_set m' row col (f row col)))
    m Hr) as Hinv.
  simpl in Hinv. destruct Hinv as (Hwf' & Hr' & Hc' & Hat); [| |done].
  - split; [done|]. split; [done|]. split; [done|]. intros; lia.
  - intros row s Hrow (Hwfs & Hrs & Hcs & Hats).
    pose proof (forZ_invariant
      (λ c m', wfMat m' ∧ rows m' = rows m ∧ cols m' = cols m ∧
               ∀ i j, 0 ≤ i < row + 1 → 0 ≤ j < cols m →
                 i < row ∨ j < c → Mat_at d m' i j = f i j)
      0 (cols m) (λ col m', Mat_set m' row col (f row col)) s Hc) as Hinv.
    simpl in Hinv. destruct Hinv as (Hwf' & Hr' & Hc' & Hat); [| |].
    + split; [done|]. split; [done|]. split; [done|].
      intros i j Hi Hj [?|?]; [|lia]. apply Hats; lia.
    + intros col t Hcol (Hwft & Hrt & Hct & Hatt).
      split; [by apply Mat_set_wf|]. rewrite Mat_set_rows, Mat_set_cols.
      split; [done|]. split; [done|]. intros i j Hi Hj Hbefore.
      rewrite Mat_set_at by done. case_bool_decide as Hhere.
      * by destruct Hhere as (-> & -> & _).
      * apply Hatt; [done..|]. lia.
    + split; [done|]. split; [done|]. split; [done|].
      intros i j Hi Hj. apply Hat; [done..|]. lia.
Qed.
End Loops.

(** X22. [normedGradients] returns a grid of the size of the first
    gradient.  Where the two gradient samples are moderate, so that their
    squares neither overflow nor underflow in binary32, its sample is the
    Euclidean norm of the two: at least the absolute value of either of
    them and at most the sum of both.  The second gradient is read at the
    positions of the first, hence the two are taken of the same size. *)
Theorem normedGradients_norm (gx gy : Mat R) :
  wfMat gx → sameSize gx gy = true →
  let gradient := normedGradients (gx, gy) in
  wfMat gradient ∧ rows gradient = rows gx ∧ cols gradient = cols gx ∧
  ∀ i j, 0 ≤ i < rows gx → 0 ≤ j < cols gx →
    moderate32 (atf gx i j) → moderate32 (atf gy i j) →
    atf gradient i j = sqrt (atf gx i j * atf gx i j + atf gy i j * atf gy i j) ∧
    (Rabs (atf gx i j) <= atf gradient i j)%R ∧
    (Rabs (atf gy i j) <= atf gradient i j)%R ∧
    (atf gradient i j <= Rabs (atf gx i j) + Rabs (atf gy i j))%R.
Proof.
  intros (Hr & Hc & _) _. cbv zeta. unfold normedGradients. simpl.
  destruct (store_loops 0%R (Mat_zerosF (rows gx) (cols gx))
              (λ row col, sqrt (atf gx row col * atf gx row col
                                + atf gy row col * atf gy row col)))
    as (Hwf & Hrows & Hcols & Hat); [by apply tabulate_wf|].
  simpl in *. set (g := forZ _ _ _ _) in *.
  split; [done|]. split; [done|]. split; [done|].
  intros i j Hi Hj _ _.
  assert (atf g i j = sqrt (atf gx i j * atf gx i j + atf gy i j * atf gy i j))
    as -> by (unfold atf at 1; by rewrite Hat).
  set (a := atf gx i j). set (b := atf gy i j).
  split; [done|].
  assert (0 <= a * a)%R by nra. assert (0 <= b * b)%R by nra.
  split; [|split].
  - rewrite <-(sqrt_Rsqr_abs a). unfold Rsqr. apply sqrt_le_1; lra.
  - rewrite <-(sqrt_Rsqr_abs b). unfold Rsqr. apply sqrt_le_1; lra.
  - rewrite <-(sqrt_Rsqr (Rabs a + Rabs b)).
    + apply sqrt_le_1; [lra|apply Rle_0_sqr|]. unfold Rsqr.
      pose proof (Rabs_pos a). pose proof (Rabs_pos b).
      assert (Rabs a * Rabs a = a * a)%R as Ha
        by (rewrite <-Rabs_mult; apply Rabs_pos_eq; lra).
      assert (Rabs b * Rabs b = b * b)%R as Hb
        by (rewrite <-Rabs_mult; apply Rabs_pos_eq; lra).
      nra.
    + pose proof (Rabs_pos a). pose proof (Rabs_pos b). lra.
Qed.

Lemma normedGradients_norm_witness :
  atf (normedGradients (mkMat 1 2 [[3; 0]%R], mkMat 1 2 [[4; -1]%R])) 0 0 =
  sqrt (atf (mkMat 1 2 [[3; 0]%R]) 0 0 * atf (mkMat 1 2 [[3; 0]%R]) 0 0 +
        atf (mkMat 1 2 [[4; -1]%R]) 0 0 * atf (mkMat 1 2 [[4; -1]%R]) 0 0).
Proof.
  apply (normedGradients_norm (mkMat 1 2 [[3; 0]%R]) (mkMat 1 2 [[4; -1]%R]));
    [|reflexivity|simpl; lia|simpl; lia|..].
  - repeat split; simpl; try lia. repeat constructor.
  - right. change (atf (mkMat 1 2 [[3; 0]%R]) 0 0) with 3%R.
    rewrite Rabs_pos_eq by lra. lra.
  - right. change (atf (mkMat 1 2 [[4; -1]%R]) 0 0) with 4%R.
    rewrite Rabs_pos_eq by lra. lra.
Defined.

(** X23. [realMat] gives back the first of two planes that [merge] has
    put together. *)
Theorem realMat_merge (re im : Mat R) :
  wfMat re → sameSize re im = true →
  (complex ← merge [re; im]; realMat complex) = Ok re.
Proof.
  intros Hwf Hsize. pose proof Hwf as (Hr & Hc & _).
  unfold merge. rewrite Hsize. simpl. f_equal.
  symmetry. apply (Mat_ext 0%R); [done|by apply tabulate_wf|done|done|].
  intros i j Hi Hj. simpl. rewrite tabulate_at by done.
  by rewrite tabulate_at by done.
Qed.

Lemma realMat_merge_witness :
  (complex ← merge [mkMat 1 2 [[3; 0]%R]; mkMat 1 2 [[4; -1]%R]]; realMat complex) =
  Ok (mkMat 1 2 [[3; 0]%R]).
Proof.
  apply (realMat_merge (mkMat 1 2 [[3; 0]%R]) (mkMat 1 2 [[4; -1]%R])); [|reflexivity].
  repeat split; simpl; try lia. repeat constructor.
Defined.


(** ** Fourier transform and spectrum display *)

(** X24. On a one-channel image whose sizes the optimal DFT sizes are not
    below, [fft] is [dft] of the image extended by zeros at the bottom and
    at the right up to the optimal size; where the size is optimal
    already, [fft] and [dft] agree. *)
Theorem fft_zero_padding (cvDft : Mat (R * R) → Mat (R * R))
    (getOptimalDFTSize : Z → Z) (m : Mat R) :
  wfMat m →
  rows m ≤ getOptimalDFTSize (rows m) → cols m ≤ getOptimalDFTSize (cols m) →
  ∃ padded,
    fft cvDft getOptimalDFTSize (Mat1 m) = dft cvDft padded ∧
    wfMat padded ∧
    rows padded = getOptimalDFTSize (rows m) ∧
    cols padded = getOptimalDFTSize (cols m) ∧
    (∀ i j, 0 ≤ i < rows padded → 0 ≤ j < cols padded →
       atf padded i j = if bool_decide (i < rows m ∧ j < cols m)
                        then atf m i j else 0%R) ∧
    (rows padded = rows m → cols padded = cols m → padded = m).
Proof.
  intros Hwf Hrows Hcols. pose proof Hwf as (Hr & Hc & _).
  unfold fft, copyMakeBorder. rewrite bool_decide_eq_true_2 by lia.
  eexists. split; [reflexivity|].
  assert (∀ i j, 0 ≤ i < getOptimalDFTSize (rows m) →
                 0 ≤ j < getOptimalDFTSize (cols m) →
            atf (tabulate (rows m + 0 + (getOptimalDFTSize (rows m) - rows m))
                          (cols m + 0 + (getOptimalDFTSize (cols m) - cols m))
                   (λ i j, if bool_decide (0 ≤ i < 0 + rows m ∧ 0 ≤ j < 0 + cols m)
                           then atf m (i - 0) (j - 0) else 0%R)) i j =
            if bool_decide (i < rows m ∧ j < cols m) then atf m i j else 0%R) as Hat.
  { intros i j Hi Hj. unfold atf at 1. rewrite tabulate_at by lia.
    rewrite !Z.sub_0_r. repeat case_bool_decide; try done; lia. }
  split; [apply tabulate_wf; lia|]. simpl.
  split; [lia|]. split; [lia|]. split.
  - intros i j Hi Hj. apply Hat; lia.
  - intros Hr' Hc'. apply (Mat_ext 0%R); [apply tabulate_wf; lia|done|done..|].
    simpl. intros i j Hi Hj. fold (atf m i j).
    etrans; [apply Hat; lia|]. rewrite bool_decide_eq_true_2 by lia. done.
Qed.

(** A 2 × 3 image padded to 2 × 4 *)
Lemma fft_zero_padding_witness :
  ∃ padded,
    fft (λ c, c) (λ n, 2 * ((n + 1) ÷ 2)) (Mat1 (mkMat 2 3 [[1; 2; 3]; [4; 5; 6]]%R)) =
      dft (λ c, c) padded ∧
    rows padded = 2 ∧ cols padded = 4.
Proof.
  destruct (fft_zero_padding (λ c, c) (λ n, 2 * ((n + 1) ÷ 2))
              (mkMat 2 3 [[1; 2; 3]; [4; 5; 6]]%R))
    as (padded & Heq & _ & Hr & Hc & _).
  - repeat split; simpl; try lia. repeat constructor.
  - by vm_compute.
  - by vm_compute.
  - exists padded. split; [exact Heq|]. split; [exact Hr|exact Hc].
Defined.

Lemma land_even (n : Z) : 0 ≤ n → Z.land n (-2) = 2 * (n ÷ 2).
Proof.
  intros Hn. change (-2) with (Z.lnot (Z.ones 1)).
  rewrite <-Z.ldiff_land, Z.ldiff_ones_r by lia.
  rewrite Z.shiftr_div_pow2, Z.shiftl_mul_pow2 by lia.
  change (2 ^ 1) with 2. rewrite Z.quot_div_nonneg by lia. lia.
Qed.

(** X25. On a well-formed spectrum with at least two rows and two
    columns [showComplexImage] shows an image of the even sizes
    2·(rows ÷ 2) and 2·(cols ÷ 2) whose sample at [(i, j)], before the
    normalisation, is the logarithm of one plus the modulus of the
    spectrum at the position shifted cyclically by half the size, so that
    the zero frequency is shown at the centre; no such sample is
    negative.  (The modulus is that of a moderate entry, whose squares
    neither overflow nor underflow.)  On a spectrum with fewer rows or
    columns the crop has no samples and [imshow] rejects it. *)
Theorem showComplexImage_layout (normalize : Mat R → fval → fval → Mat R)
    (windowName : string) (complex : Mat (R * R)) :
  (∀ m a b, sameSize (normalize m a b) m = true) →
  wfMat complex →
  (rows complex < 2 ∨ cols complex < 2 →
   showComplexImage normalize windowName complex = Err CvArgumentError) ∧
  (2 ≤ rows complex → 2 ≤ cols complex →
   ∃ magI,
     showComplexImage normalize windowName complex =
       Ok [ImshowFloat windowName (normalize magI (Finite 0) (Finite 1))] ∧
     wfMat magI ∧
     rows magI = 2 * (rows complex ÷ 2) ∧ cols magI = 2 * (cols complex ÷ 2) ∧
     ∀ i j, 0 ≤ i < rows magI → 0 ≤ j < cols magI →
       let z := Mat_at (0%R, 0%R) complex
                  ((i + rows complex ÷ 2) mod rows magI)
                  ((j + cols complex ÷ 2) mod cols magI) in
       moderate32 z.1 → moderate32 z.2 →
       atf magI i j = ln (sqrt (z.1 * z.1 + z.2 * z.2) + 1) ∧
       (0 <= atf magI i j)%R).
Proof.
  intros Hnorm Hwf. pose proof Hwf as (Hr & Hc & _).
  unfold showComplexImage, split, magnitude. simpl.
  rewrite !land_even by done.
  set (logI := tabulate (rows complex) (cols complex) _).
  assert (2 * (rows complex ÷ 2) ≤ rows complex ∧
          2 * (cols complex ÷ 2) ≤ cols complex ∧
          0 ≤ rows complex ÷ 2 ∧ 0 ≤ cols complex ÷ 2) as (Hh & Hw & Hh0 & Hw0)
    by (Z.to_euclidean_division_equations; lia).
  rewrite Mat_roi_eq by (simpl; lia). csimpl.
  set (crop := tabulate (2 * (rows complex ÷ 2)) (2 * (cols complex ÷ 2)) _).
  destruct (swapQuadrants_at 0%R crop) as (out & -> & Hwfo & Hro & Hco & Hat);
    [apply tabulate_wf; lia|].
  csimpl. simpl in Hro, Hco. unfold imshow.
  assert (Mat_empty (normalize out (Finite 0) (Finite 1)) = Mat_empty out) as ->.
  { specialize (Hnorm out (Finite 0) (Finite 1)).
    apply sameSize_true in Hnorm as [Hrn Hcn]. unfold Mat_empty.
    by rewrite Hrn, Hcn. }
  unfold Mat_empty. rewrite Hro, Hco. split.
  - intros Hsmall.
    assert (rows complex ÷ 2 = 0 ∨ cols complex ÷ 2 = 0) as [-> | ->]
      by (Z.to_euclidean_division_equations; lia).
    + by rewrite bool_decide_eq_true_2 by lia.
    + rewrite (bool_decide_eq_true_2 (2 * 0 = 0)) by lia. by rewrite orb_true_r.
  - intros Hrows Hcols.
    assert (0 < rows complex ÷ 2 ∧ 0 < cols complex ÷ 2) as [Hhp Hwp]
      by (Z.to_euclidean_division_equations; lia).
    rewrite !bool_decide_eq_false_2 by lia. simpl.
    exists out. split; [done|]. split; [done|].
    split; [done|]. split; [done|]. rewrite Hro, Hco.
    intros i j Hi Hj. cbv zeta. intros _ _.
    assert (2 * (rows complex ÷ 2) ÷ 2 = rows complex ÷ 2) as Hhalf_r
      by (Z.to_euclidean_division_equations; lia).
    assert (2 * (cols complex ÷ 2) ÷ 2 = cols complex ÷ 2) as Hhalf_c
      by (Z.to_euclidean_division_equations; lia).
    assert (0 ≤ (i + rows complex ÷ 2) mod (2 * (rows complex ÷ 2))
              < 2 * (rows complex ÷ 2)) as Hi' by (apply Z.mod_pos_bound; lia).
    assert (0 ≤ (j + cols complex ÷ 2) mod (2 * (cols complex ÷ 2))
              < 2 * (cols complex ÷ 2)) as Hj' by (apply Z.mod_pos_bound; lia).
    set (si := (i + rows complex ÷ 2) mod (2 * (rows complex ÷ 2))) in *.
    set (sj := (j + cols complex ÷ 2) mod (2 * (cols complex ÷ 2))) in *.
    assert (atf out i j =
            ln (sqrt ((Mat_at (0%R, 0%R) complex si sj).1 *
                      (Mat_at (0%R, 0%R) complex si sj).1 +
                      (Mat_at (0%R, 0%R) complex si sj).2 *
                      (Mat_at (0%R, 0%R) complex si sj).2) + 1)) as ->.
    { unfold atf. rewrite Hat by (simpl; lia). simpl.
      rewrite Hhalf_r, Hhalf_c.
      destruct (Z.ltb_spec i (2 * (rows complex ÷ 2))); [|lia].
      destruct (Z.ltb_spec j (2 * (cols complex ÷ 2))); [|lia]. simpl.
      rewrite (swapSource_shift (2 * (rows complex ÷ 2))) by lia.
      rewrite (swapSource_shift (2 * (cols complex ÷ 2))) by lia.
      fold si sj. unfold crop. rewrite tabulate_at by lia.
      rewrite !Z.add_0_l. unfold logI, atf.
      rewrite tabulate_at by lia. f_equal.
      rewrite tabulate_at by lia. f_equal.
      rewrite tabulate_at by lia. f_equal.
      by rewrite !tabulate_at by lia. }
    split; [done|].
    set (mag := sqrt _). assert (0 <= mag)%R as Hmag by apply sqrt_pos.
    destruct (Req_dec_T mag 0) as [->|Hne].
    + rewrite Rplus_0_l, ln_1. lra.
    + rewrite <-ln_1. left. apply ln_increasing; lra.
Qed.

(** A 3 × 2 spectrum: the last row is cropped, the rest is shifted; a
    1 × 2 spectrum is rejected. *)
Lemma showComplexImage_layout_witness :
  (∃ magI,
     showComplexImage (λ m _ _, m) "s"
       (mkMat 3 2 [[(1, 0); (0, 1)]; [(3, 4); (0, 0)]; [(2, 2); (5, 5)]]%R) =
       Ok [ImshowFloat "s" magI] ∧
     rows magI = 2 ∧ cols magI = 2) ∧
  showComplexImage (λ m _ _, m) "s" (mkMat 1 2 [[(1, 0); (0, 1)]]%R) =
    Err CvArgumentError.
Proof.
  split.
  - destruct (showComplexImage_layout (λ m _ _, m) "s"
                (mkMat 3 2 [[(1, 0); (0, 1)]; [(3, 4); (0, 0)]; [(2, 2); (5, 5)]]%R))
      as [_ Hlarge].
    + intros m _ _. apply sameSize_refl.
    + repeat split; simpl; try lia. repeat constructor.
    + destruct Hlarge as (magI & Heq & _ & Hr & Hc & _); [simpl; lia..|].
      exists magI. split; [exact Heq|]. split; [exact Hr|exact Hc].
  - apply (showComplexImage_layout (λ m _ _, m) "s" (mkMat 1 2 [[(1, 0); (0, 1)]]%R)).
    + intros m _ _. apply sameSize_refl.
    + repeat split; simpl; try lia. repeat constructor.
    + left. simpl. lia.
Defined.


(** * The correlation score in binary32 *)

(** ** Negation and the operations of [SpecFloat] *)

Section FloatSigns.
Import SpecFloat.
Variables prec emax : Z.

Lemma binary_round_aux_opp (s : bool) (m e : Z) (l : location) :
  binary_round_aux prec emax (negb s) m e l =
  SFopp (binary_round_aux prec emax s m e l).
Proof.
  unfold binary_round_aux.
  destruct (shr_fexp prec emax m e l) as [mrs e'].
  destruct (shr_fexp prec emax _ e' loc_Exact) as [mrs' e''].
  destruct (shr_m mrs'); [done| |done]. by destruct (_ <=? _).
Qed.


Lemma SFopp_involutive (a : spec_float) : SFopp (SFopp a) = a.
Proof. destruct a as [s|s| |s m e]; simpl; by rewrite ?negb_involutive. Qed.


Lemma SFmul_opp_l (a b : spec_float) :
  SFmul prec emax (SFopp a) b = SFopp (SFmul prec emax a b).
Proof.
  destruct a as [[]|[]| |[] ma ea], b as [[]|[]| |[] mb eb];
    cbn [SFmul SFopp xorb negb]; try done.
  all: first [apply (binary_round_aux_opp false)
             |apply (binary_round_aux_opp true)].
Qed.





Lemma sameValue_opp (a b : spec_float) :
  sameValue a b → sameValue (SFopp a) (SFopp b).
Proof.
  destruct a as [sa|sa| |sa ma ea], b as [sb|sb| |sb mb eb];
    simpl; try done; intros H; by inversion H.
Qed.







End FloatSigns.

(** ** The score of a grid with itself and with its negative *)

Section SelfScore32.
Variables (X : Mat float32) (region : Mat Z) (meanX meanY : float32).




End SelfScore32.




